(** * The movie guessing engine (engine_akinator.py): elimination, guessing, undo

    A shallow embedding of the question/elimination engine of
    [backend/engines/engine_akinator.py] and of the turn loop of its [main].

    - Python [float] is binary64: scores and popularities are primitive floats.
    - Python [int] is unbounded: identifiers and counters are [Z].
    - [Dict[int, float]], [Dict[int, int]] and [Set[str]] are finite maps and
      sets ([gmap], [gset]); Python compares them without regard to order.
    - A predicate returns [True], [False] or [None]: [option bool].
    - The engine mutates its state object in place.  The functions of the first
      part pass the state explicitly; the last part puts the state's
      containers in an object store, with the aliasing Python has, to follow
      what a snapshot shares with the live state. *)

From Stdlib Require Import ZArith List Bool Ascii String Lia Permutation.
From Stdlib Require Import PrimFloat Uint63.
From stdpp Require Import gmap strings list fin_maps.

(* Decimal literals such as 0.2 denote the nearest binary64 value, as in Python. *)
Set Warnings "-inexact-float".

Open Scope string_scope.
Open Scope list_scope.
Open Scope Z_scope.

(* ===================================================================== *)
(** ** Rows of the catalog and enriched records *)
(* ===================================================================== *)

(** A row of the [movies] table as [discover_movies] loads it ([dict(row)]):
    every column is a key of the dict, a NULL is [None]. *)
Record movie := {
  mv_id : option Z;
  mv_title : option string;
  mv_popularity : option float;
  mv_original_language : option string;
}.

(** [movie_id]: [m.get("id")], [None] when missing; [int()] of an integer
    column is the integer itself. *)
Definition movie_id (m : movie) : option Z := mv_id m.

Record keyword := { kw_id : Z; kw_name : string }.
Record cast_member := { cast_name : string; cast_character : string; cast_order : Z }.
Record crew_member := { crew_name : string; crew_job : string }.
Record collection := { col_id : Z; col_name : option string }.

(** What [get_details] returns.  The predicates read it through
    [d.get(k, default)], so a missing key and its default are one value here:
    [{}] is [empty_details]. *)
Record details := {
  belongs_to_collection : option collection;
  keywords : list keyword;
  credits_cast : list cast_member;
  credits_crew : list crew_member;
  production_countries : list string;
}.

Definition empty_details : details :=
  {| belongs_to_collection := None; keywords := []; credits_cast := [];
     credits_crew := []; production_countries := [] |}.

(** The connection, as far as [get_details] reads it: the enriched record of
    an identifier, when the table has a row for it.  ([DETAILS_CACHE] only
    memoises the lookup.) *)
Definition get_details (conn : gmap Z details) (mid : Z) : details :=
  match conn !! mid with
  | Some d => d
  | None => empty_details
  end.

(* ===================================================================== *)
(** ** Strings *)
(* ===================================================================== *)

(** [str.lower()] on the ASCII letters. *)
Definition lower_ascii (c : ascii) : ascii :=
  let n := nat_of_ascii c in
  if ((65 <=? n)%nat && (n <=? 90)%nat)%bool then ascii_of_nat (n + 32) else c.

Fixpoint lower (s : string) : string :=
  match s with
  | EmptyString => EmptyString
  | String c r => String (lower_ascii c) (lower r)
  end.

(** [needle in hay]. *)
Definition contains (needle hay : string) : bool :=
  match String.index 0 needle hay with
  | Some _ => true
  | None => false
  end.

(** [str(x)] of an optional string: [str(None)] is ["None"]. *)
Definition py_str (o : option string) : string :=
  match o with
  | Some s => s
  | None => "None"
  end.

(** [s.startswith(p)]. *)
Definition startswith (s p : string) : bool := String.prefix p s.

(** [s.startswith((p1, ..., pn))]. *)
Definition startswith_any (s : string) (ps : list string) : bool :=
  existsb (startswith s) ps.

(* ===================================================================== *)
(** ** Questions and the engine state *)
(* ===================================================================== *)

Record Question := {
  key : string;
  text : string;
  predicate : movie -> option bool;
  requires : option (gset string);
  excludes : option (gset string);
}.

Definition Answer := string.

Record EngineState := {
  candidates : list movie;
  asked : gset string;
  scores : gmap Z float;
  strikes : gmap Z Z;
  question_count : Z;
  guess_cooldown : Z;
  top_streak_mid : option Z;
  top_streak_len : Z;
  consecutive_guesses : Z;
  recent_question_types : list string;
}.

(** [state.scores.get(mid, 0.0)] and [state.strikes.get(mid, 0)]. *)
Definition scores_get (sc : gmap Z float) (mid : Z) : float :=
  match sc !! mid with
  | Some x => x
  | None => 0%float
  end.

Definition strikes_get (st : gmap Z Z) (mid : Z) : Z :=
  match st !! mid with
  | Some x => x
  | None => 0
  end.

(** [init_state]. *)
Fixpoint init_scores (movies : list movie) (sc : gmap Z float) : gmap Z float :=
  match movies with
  | [] => sc
  | m :: rest =>
      match movie_id m with
      | Some mid => init_scores rest (<[mid := 0%float]> sc)
      | None => init_scores rest sc
      end
  end.

Definition init_state (movies : list movie) : EngineState :=
  {| candidates := movies;
     asked := ∅;
     scores := init_scores movies ∅;
     strikes := ∅;
     question_count := 0;
     guess_cooldown := 0;
     top_streak_mid := None;
     top_streak_len := 0;
     consecutive_guesses := 0;
     recent_question_types := [] |}.

(** [snapshot_state] builds a new state from copies of the containers; as a
    value, the copy of a container is the container. *)
Definition snapshot_state (state : EngineState) : EngineState :=
  {| candidates := candidates state;
     asked := asked state;
     scores := scores state;
     strikes := strikes state;
     question_count := question_count state;
     guess_cooldown := guess_cooldown state;
     top_streak_mid := top_streak_mid state;
     top_streak_len := top_streak_len state;
     consecutive_guesses := consecutive_guesses state;
     recent_question_types := recent_question_types state |}.

(* ===================================================================== *)
(** ** Sorting the pool *)
(* ===================================================================== *)

(** The key of [sort_candidates]: [(-score, -popularity)], and
    [(-1e9, 0.0)] for a row without identifier. *)
Definition key_func (sc : gmap Z float) (m : movie) : float * float :=
  match movie_id m with
  | None => ((-1e9)%float, 0%float)
  | Some mid =>
      let score := scores_get sc mid in
      let pop := match mv_popularity m with Some p => p | None => 0%float end in
      ((- score)%float, (- pop)%float)
  end.

(** [k1 < k2] on tuples of floats: the first components decide unless they
    are equal. *)
Definition key_lt (k1 k2 : float * float) : bool :=
  if PrimFloat.eqb (fst k1) (fst k2)
  then PrimFloat.ltb (snd k1) (snd k2)
  else PrimFloat.ltb (fst k1) (fst k2).

(** [list.sort(key=...)] is stable: an element moves before another only when
    its key is strictly smaller. *)
Fixpoint insert_by {A} (lt : A -> A -> bool) (x : A) (l : list A) : list A :=
  match l with
  | [] => [x]
  | y :: r => if lt y x then y :: insert_by lt x r else x :: y :: r
  end.

Fixpoint sort_by {A} (lt : A -> A -> bool) (l : list A) : list A :=
  match l with
  | [] => []
  | x :: r => insert_by lt x (sort_by lt r)
  end.

Definition sorted_candidates (sc : gmap Z float) (cands : list movie) : list movie :=
  sort_by (fun a b => key_lt (key_func sc a) (key_func sc b)) cands.

Definition sort_candidates (state : EngineState) : EngineState :=
  {| candidates := sorted_candidates (scores state) (candidates state);
     asked := asked state;
     scores := scores state;
     strikes := strikes state;
     question_count := question_count state;
     guess_cooldown := guess_cooldown state;
     top_streak_mid := top_streak_mid state;
     top_streak_len := top_streak_len state;
     consecutive_guesses := consecutive_guesses state;
     recent_question_types := recent_question_types state |}.

(** Field updates of the state object. *)
Definition set_candidates (v : list movie) (s : EngineState) : EngineState :=
  {| candidates := v; asked := asked s; scores := scores s; strikes := strikes s;
     question_count := question_count s; guess_cooldown := guess_cooldown s;
     top_streak_mid := top_streak_mid s; top_streak_len := top_streak_len s;
     consecutive_guesses := consecutive_guesses s;
     recent_question_types := recent_question_types s |}.

Definition set_asked (v : gset string) (s : EngineState) : EngineState :=
  {| candidates := candidates s; asked := v; scores := scores s; strikes := strikes s;
     question_count := question_count s; guess_cooldown := guess_cooldown s;
     top_streak_mid := top_streak_mid s; top_streak_len := top_streak_len s;
     consecutive_guesses := consecutive_guesses s;
     recent_question_types := recent_question_types s |}.

Definition set_scores (v : gmap Z float) (s : EngineState) : EngineState :=
  {| candidates := candidates s; asked := asked s; scores := v; strikes := strikes s;
     question_count := question_count s; guess_cooldown := guess_cooldown s;
     top_streak_mid := top_streak_mid s; top_streak_len := top_streak_len s;
     consecutive_guesses := consecutive_guesses s;
     recent_question_types := recent_question_types s |}.

Definition set_strikes (v : gmap Z Z) (s : EngineState) : EngineState :=
  {| candidates := candidates s; asked := asked s; scores := scores s; strikes := v;
     question_count := question_count s; guess_cooldown := guess_cooldown s;
     top_streak_mid := top_streak_mid s; top_streak_len := top_streak_len s;
     consecutive_guesses := consecutive_guesses s;
     recent_question_types := recent_question_types s |}.

Definition set_question_count (v : Z) (s : EngineState) : EngineState :=
  {| candidates := candidates s; asked := asked s; scores := scores s; strikes := strikes s;
     question_count := v; guess_cooldown := guess_cooldown s;
     top_streak_mid := top_streak_mid s; top_streak_len := top_streak_len s;
     consecutive_guesses := consecutive_guesses s;
     recent_question_types := recent_question_types s |}.

Definition set_guess_cooldown (v : Z) (s : EngineState) : EngineState :=
  {| candidates := candidates s; asked := asked s; scores := scores s; strikes := strikes s;
     question_count := question_count s; guess_cooldown := v;
     top_streak_mid := top_streak_mid s; top_streak_len := top_streak_len s;
     consecutive_guesses := consecutive_guesses s;
     recent_question_types := recent_question_types s |}.

Definition set_top_streak (mid : option Z) (len : Z) (s : EngineState) : EngineState :=
  {| candidates := candidates s; asked := asked s; scores := scores s; strikes := strikes s;
     question_count := question_count s; guess_cooldown := guess_cooldown s;
     top_streak_mid := mid; top_streak_len := len;
     consecutive_guesses := consecutive_guesses s;
     recent_question_types := recent_question_types s |}.

Definition set_consecutive_guesses (v : Z) (s : EngineState) : EngineState :=
  {| candidates := candidates s; asked := asked s; scores := scores s; strikes := strikes s;
     question_count := question_count s; guess_cooldown := guess_cooldown s;
     top_streak_mid := top_streak_mid s; top_streak_len := top_streak_len s;
     consecutive_guesses := v;
     recent_question_types := recent_question_types s |}.

Definition set_recent_question_types (v : list string) (s : EngineState) : EngineState :=
  {| candidates := candidates s; asked := asked s; scores := scores s; strikes := strikes s;
     question_count := question_count s; guess_cooldown := guess_cooldown s;
     top_streak_mid := top_streak_mid s; top_streak_len := top_streak_len s;
     consecutive_guesses := consecutive_guesses s;
     recent_question_types := v |}.

(* ===================================================================== *)
(** ** [update_state_with_answer] *)
(* ===================================================================== *)

Definition hard_elimination_prefixes : list string :=
  ["franchise_"; "language_"; "director_"; "joker_title_"; "char_"; "decade_"; "year_"].

Definition hard_elimination_keys : list string :=
  ["is_animation"; "is_live_action"; "is_short"; "is_feature";
   "runtime_lt_90"; "runtime_ge_150"; "before_2000"; "after_2010";
   "is_saga"; "is_standalone"; "big_budget"; "small_budget";
   "is_american"; "is_french"; "is_european"; "is_asian"].

Definition is_hard_elimination (k : string) : bool :=
  existsb (String.eqb k) hard_elimination_keys
  || existsb (startswith k) hard_elimination_prefixes.

(** What one pass of a loop over the pool does with a row, by the value [r] of
    the predicate on it: [state.scores[mid] = state.scores.get(mid, 0.0) + d]
    (or [- d]), or nothing when no branch of the [if] is taken. *)
Inductive verdict :=
| Add (d : float)
| Sub (d : float)
| Nothing.

Definition rule_y (r : option bool) : verdict :=
  match r with
  | Some true => Add 5.0
  | None => Sub 1.0
  | Some false => Nothing
  end.

Definition rule_n (r : option bool) : verdict :=
  match r with
  | Some false => Add 3.0
  | None => Add 0.5
  | Some true => Nothing
  end.

Definition rule_py (hard : bool) (r : option bool) : verdict :=
  match r with
  | Some true => Add (if hard then 1.5 else 0.5)
  | Some false => Add (if hard then (-2.0) else (-0.75))
  | None => Nothing
  end.

Definition rule_pn (hard : bool) (r : option bool) : verdict :=
  match r with
  | Some false => Add (if hard then 1.5 else 0.5)
  | Some true => Add (if hard then (-2.0) else (-0.75))
  | None => Nothing
  end.

Definition rule_unknown (r : option bool) : verdict :=
  match r with
  | None => Add 0.2
  | _ => Nothing
  end.

Definition bump (sc : gmap Z float) (mid : Z) (v : verdict) : gmap Z float :=
  match v with
  | Add d => <[mid := (scores_get sc mid + d)%float]> sc
  | Sub d => <[mid := (scores_get sc mid - d)%float]> sc
  | Nothing => sc
  end.

(** [for m in state.candidates: ...]: the rows are visited in order, the
    scores are updated as the loop goes; the first component is [to_keep] of
    the "y" and "n" branches (the rows for which a branch was taken). *)
Fixpoint answer_loop (rule : option bool -> verdict) (p : movie -> option bool)
    (cands : list movie) (sc : gmap Z float) : list movie * gmap Z float :=
  match cands with
  | [] => ([], sc)
  | m :: rest =>
      match movie_id m with
      | None => answer_loop rule p rest sc
      | Some mid =>
          match rule (p m) with
          | Nothing => answer_loop rule p rest sc
          | v =>
              let r := answer_loop rule p rest (bump sc mid v) in
              (m :: fst r, snd r)
          end
      end
  end.

(** [{movie_id(m) for m in state.candidates if movie_id(m) is not None}]. *)
Definition remaining_ids (cands : list movie) : gset Z :=
  list_to_set (omap movie_id cands).

(** [{mid: v for mid, v in d.items() if mid in remaining_ids}]. *)
Definition keep_ids {V} (ids : gset Z) (d : gmap Z V) : gmap Z V :=
  filter (fun kv => fst kv ∈ ids) d.

(** The body of the "y" and of the "n" branch, which differ by their rule:
    the loop, then [state.candidates = to_keep] and the two dicts cut down to
    the identifiers that remain. *)
Definition elimination_pass (rule : option bool -> verdict) (q : Question)
    (state : EngineState) : EngineState :=
  let r := answer_loop rule (predicate q) (candidates state) (scores state) in
  let ids := remaining_ids (fst r) in
  set_strikes (keep_ids ids (strikes state))
    (set_scores (keep_ids ids (snd r)) (set_candidates (fst r) state)).

(** The body of the "py", "pn" and "?" branches: the loop only. *)
Definition score_pass (rule : option bool -> verdict) (q : Question)
    (state : EngineState) : EngineState :=
  set_scores (snd (answer_loop rule (predicate q) (candidates state) (scores state))) state.

(** The branch on [ans]. *)
Definition apply_answer (state : EngineState) (q : Question) (ans : Answer) : EngineState :=
  let hard := is_hard_elimination (key q) in
  if String.eqb ans "y" then elimination_pass rule_y q state
  else if String.eqb ans "n" then elimination_pass rule_n q state
  else if String.eqb ans "py" then score_pass (rule_py hard) q state
  else if String.eqb ans "pn" then score_pass (rule_pn hard) q state
  else if String.eqb ans "?" then score_pass rule_unknown q state
  else state.

(** [to_remove]: the identifiers of the rows whose strikes reached
    [max_strikes], one entry per row. *)
Definition to_remove (st : gmap Z Z) (max_strikes : Z) (cands : list movie) : list Z :=
  omap (fun m =>
          match movie_id m with
          | Some mid => if (max_strikes <=? strikes_get st mid)%Z then Some mid else None
          | None => None
          end) cands.

(** [movie_id(m) in l], for a list of integers: [None] is in none. *)
Definition id_in (o : option Z) (l : list Z) : bool :=
  match o with
  | Some i => existsb (Z.eqb i) l
  | None => false
  end.

(** [for mid in to_remove: d.pop(mid, None)]. *)
Definition pop_all {V} (l : list Z) (d : gmap Z V) : gmap Z V :=
  fold_left (fun acc mid => delete mid acc) l d.

Definition strike_removal (state : EngineState) (max_strikes : Z) : EngineState :=
  let tr := to_remove (strikes state) max_strikes (candidates state) in
  match tr with
  | [] => state
  | _ =>
      set_strikes (pop_all tr (strikes state))
        (set_scores (pop_all tr (scores state))
           (set_candidates
              (List.filter (fun m => negb (id_in (movie_id m) tr)) (candidates state))
              state))
  end.

Definition update_state_with_answer (state : EngineState) (q : Question) (ans : Answer)
    (max_strikes : Z) : EngineState :=
  let s1 := apply_answer state q ans in
  let s2 := if is_hard_elimination (key q) then s1 else strike_removal s1 max_strikes in
  sort_candidates s2.

(* ===================================================================== *)
(** ** Guessing *)
(* ===================================================================== *)

Definition score_of (state : EngineState) (m : movie) : float :=
  match movie_id m with
  | None => (-1e9)%float
  | Some mid => scores_get (scores state) mid
  end.

Definition should_enter_guess_mode (state : EngineState) : bool :=
  match candidates state with
  | [_] => true
  | c0 :: c1 :: _ =>
      let s1 := score_of state c0 in
      let s2 := score_of state c1 in
      if (PrimFloat.ltb 0 s2 && PrimFloat.leb 2.0 (s1 / s2))%bool then true
      else if (PrimFloat.leb s2 0 && PrimFloat.leb 10.0 s1)%bool then true
      else (10 <=? top_streak_len state)%Z
  | [] => (10 <=? top_streak_len state)%Z
  end.

Definition eliminate_movie (state : EngineState) (mid : Z) : EngineState :=
  set_strikes (delete mid (strikes state))
    (set_scores (delete mid (scores state))
       (set_candidates
          (List.filter (fun m => negb (id_in (movie_id m) [mid])) (candidates state))
          state)).

(* ===================================================================== *)
(** ** Scoring and choosing a question *)
(* ===================================================================== *)

(** An integer as a float (exact below 2^53; the counts here are at most the
    size of the pool). *)
Definition float_of_Z (z : Z) : float := PrimFloat.of_uint63 (Uint63.of_Z z).

Fixpoint split_counts (cands : list movie) (p : movie -> option bool) : Z * Z * Z :=
  match cands with
  | [] => (0, 0, 0)
  | m :: rest =>
      let '(yes, no, unk) := split_counts rest p in
      match p m with
      | Some true => (yes + 1, no, unk)
      | Some false => (yes, no + 1, unk)
      | None => (yes, no, unk + 1)
      end
  end.

(** [get_question_type]. *)
Definition get_question_type (q : Question) : string :=
  let k := key q in
  if startswith k "validate_" then "validation"
  else if startswith k "language_" then "language"
  else if startswith_any k ["actor_"; "dyn_actor_"] then "actor"
  else if startswith_any k ["director_"; "dyn_director_"] then "director"
  else if startswith k "genre_" then "genre"
  else if startswith_any k ["franchise_"; "char_"] then "franchise"
  else if startswith_any k ["year_"; "decade_"; "after_"; "before_"] then "date"
  else if startswith k "dyn_keyword_" then "keyword"
  else if startswith k "runtime_" then "runtime"
  else if startswith k "joker_title_" then "title"
  else if startswith_any k ["big_budget"; "small_budget"; "box_office"; "is_indie"] then "finance"
  else if startswith_any k ["popular"; "very_popular"] then "popularity"
  else if startswith_any k ["is_saga"; "is_standalone"; "is_adaptation"; "based_on_"; "superhero"] then "meta"
  else if startswith_any k ["is_american"; "is_french"; "is_european"; "is_asian"] then "origin"
  else if startswith_any k ["is_animation"; "is_live_action"; "is_short"; "is_feature"] then "format"
  else if startswith k "theme_" then "theme"
  else "other".

(** [l[-n:]] for a positive [n]. *)
Definition last_n {A} (n : nat) (l : list A) : list A := skipn (length l - n) l.

(** [l.count(x)] on strings. *)
Definition count_str (x : string) (l : list string) : Z :=
  Z.of_nat (length (List.filter (String.eqb x) l)).

Definition count_recent_type (state : EngineState) (q_type : string) (window : nat) : Z :=
  match recent_question_types state with
  | [] => 0
  | recent => count_str q_type (last_n window recent)
  end.

(** [len(set(l))]. *)
Definition unique_count (l : list string) : Z :=
  Z.of_nat (size (list_to_set l : gset string)).

Definition should_diversify (state : EngineState) (q : Question) (max_consecutive : nat) : bool :=
  let q_type := get_question_type q in
  if (String.eqb q_type "language" || String.eqb q_type "validation")%bool then false
  else if (Z.of_nat max_consecutive <=? count_recent_type state q_type max_consecutive)%Z then true
  else if (5 <=? length (recent_question_types state))%nat then
    let last_5 := last_n 5 (recent_question_types state) in
    ((unique_count last_5 <? 3)%Z && (2 <=? count_str q_type last_5)%Z)%bool
  else false.

(** The table of contradicting keys of [choose_best_question]. *)
Definition contradictions : list (string * string) :=
  [("big_budget", "small_budget"); ("small_budget", "big_budget");
   ("runtime_lt_90", "runtime_ge_150"); ("runtime_ge_150", "runtime_lt_90");
   ("is_animation", "is_live_action"); ("is_live_action", "is_animation");
   ("is_saga", "is_standalone"); ("is_standalone", "is_saga");
   ("after_1980", "before_1970"); ("after_2000", "before_1990");
   ("after_2020", "before_2010")].

Fixpoint contradiction_of (k : string) (tbl : list (string * string)) : option string :=
  match tbl with
  | [] => None
  | (a, b) :: rest => if String.eqb k a then Some b else contradiction_of k rest
  end.

(** [sum(1 for q in asked if q.startswith("joker_title_"))]. *)
Definition jokers_used (asked : gset string) : Z :=
  Z.of_nat (length (List.filter (fun k => startswith k "joker_title_") (elements asked))).

(** The filter of [choose_best_question]: [true] when the loop reaches
    [valid_questions.append(q)]. *)
Definition is_valid_question (asked : gset string) (q : Question) : bool :=
  if bool_decide (key q ∈ asked) then false
  else if match requires q with
          | Some r => negb (bool_decide (r = ∅)) && negb (bool_decide (r ⊆ asked))
          | None => false
          end then false
  else if match excludes q with
          | Some e => negb (bool_decide (e = ∅)) && negb (bool_decide (e ∩ asked = ∅))
          | None => false
          end then false
  else if (startswith (key q) "joker_title_" && (1 <=? jokers_used asked)%Z)%bool then false
  else if match contradiction_of (key q) contradictions with
          | Some other => bool_decide (other ∈ asked)
          | None => false
          end then false
  else true.

Section Scoring.

(** [math.log2]. *)
Variable log2 : float -> float.

Definition entropy_split (yes no : Z) : float :=
  let n := yes + no in
  if (n =? 0)%Z then 0.0%float
  else
    let h := fun x : Z =>
      if (x =? 0)%Z then 0.0%float
      else let p := (float_of_Z x / float_of_Z n)%float in (- p * log2 p)%float in
    (h yes + h no)%float.

(** [Question.score]. *)
Definition score (q : Question) (cands : list movie) : float :=
  let sample := if (500 <? length cands)%nat then firstn 500 cands else cands in
  let '(yes, no, unk) := split_counts sample (predicate q) in
  if (((yes =? 0)%Z && (unk =? 0)%Z) || ((no =? 0)%Z && (unk =? 0)%Z))%bool then (-1.0)%float
  else
    let base := entropy_split yes no in
    let n := Z.of_nat (length sample) in
    let unk_ratio := if (n =? 0)%Z then 1.0%float else (float_of_Z unk / float_of_Z n)%float in
    let sc := (base - 0.35 * unk_ratio)%float in
    let k := key q in
    if startswith k "validate_" then (sc * 50.0)%float
    else if startswith k "language_" then (sc * 100.0)%float
    else if startswith_any k ["director_"; "dyn_director_"] then (sc * 1.5)%float
    else if startswith_any k ["franchise_"] then (sc * 1.6)%float
    else if startswith_any k ["char_"] then (sc * 1.35)%float
    else if startswith_any k ["actor_"; "dyn_actor_"] then
      (if ((0 <? yes)%Z && (yes <? n)%Z)%bool then (sc * 1.3)%float else sc)
    else if startswith_any k ["location_"; "event_"; "object_"] then (sc * 1.25)%float
    else if (startswith k "joker_title_" && (n <=? 10)%Z)%bool then (sc * 1.2)%float
    else sc.

(** The loop that builds [scored]. *)
Definition scored_questions (cands : list movie) (state : option EngineState)
    (valid : list Question) : list (Question * float) :=
  omap (fun q =>
          let s := score q cands in
          if PrimFloat.ltb 0 s then
            Some (q, match state with
                     | Some st => if should_diversify st q 2 then (s * 0.01)%float else s
                     | None => s
                     end)
          else None) valid.

(** [choose_best_question]; [rnd] is the draw of [random.choice] among the
    five best. *)
Definition choose_best_question (rnd : nat) (cands : list movie) (questions : list Question)
    (asked : gset string) (is_first_question : bool) (state : option EngineState)
    : option Question :=
  let valid_questions := List.filter (is_valid_question asked) questions in
  match valid_questions with
  | [] => None
  | _ =>
      let valid_questions :=
        if (150 <? length valid_questions)%nat then firstn 150 valid_questions
        else valid_questions in
      let scored := scored_questions cands state valid_questions in
      match scored with
      | [] => None
      | _ =>
          let scored := sort_by (fun a b => PrimFloat.ltb (snd b) (snd a)) scored in
          if (is_first_question && (5 <=? length scored)%nat)%bool
          then option_map fst (nth_error (firstn 5 scored) (rnd mod 5)%nat)
          else option_map fst (head scored)
      end
  end.

(** [get_discriminating_questions], from the questions it gathers
    ([default_questions] and the dynamic ones). *)
Definition get_discriminating_questions (gathered : list Question) (cands : list movie)
    (asked : gset string) (count : nat) : list Question :=
  let available := List.filter (fun q => negb (bool_decide (key q ∈ asked))) gathered in
  let scored := map (fun q => (q, score q cands)) available in
  let scored := List.filter (fun qs => PrimFloat.ltb 0.1 (snd qs)) scored in
  let scored := sort_by (fun a b => PrimFloat.ltb (snd b) (snd a)) scored in
  map fst (firstn count scored).

End Scoring.

(* ===================================================================== *)
(** ** The turn loop of [main] *)
(* ===================================================================== *)

(** The command line, and what [main] derives from it. *)
Record Args := {
  args_max_strikes : Z;
  args_top_streak_questions : Z;
  args_guess_cooldown : Z;
  args_max_consecutive_guesses : Z;
}.

Definition default_args : Args :=
  {| args_max_strikes := 3; args_top_streak_questions := 3;
     args_guess_cooldown := 2; args_max_consecutive_guesses := 4 |}.

Definition max_strikes (args : Args) : Z := Z.max 1 (args_max_strikes args).
Definition max_consecutive_guesses (args : Args) : Z := Z.max 2 (args_max_consecutive_guesses args).

(** What the loop takes from outside the engine state: [math.log2], the
    questions built from the database for a pool and an asked set (the merged
    list of the regular turn, the list gathered for the targeted questions),
    and the draw of [random.choice]. *)
Record World := {
  w_log2 : float -> float;
  w_merged_questions : list movie -> gset string -> list Question;
  w_gathered_questions : list movie -> gset string -> list Question;
  w_random : nat;
}.

(** The local variables [state] and [history] of [main]; the head of
    [history] is the last snapshot appended. *)
Record Session := {
  state : EngineState;
  history : list EngineState;
}.

(** What the user sees. *)
Inductive event :=
| EvQuestion (q : Question)
| EvGuess (m : movie)
| EvFound (m : movie)
| EvExhausted
| EvUndone
| EvNoHistory.

Inductive outcome :=
| Continue (s : Session) (inp : list string)
| Return
| Raise
| EndOfInput.

Inductive flow :=
| Next (s : Session) (inp : list string)
| Stop (o : outcome).

(** The lines of standard input, stripped and lower-cased. [read_answer] and
    [ask_yes_no] read until a line is one they accept. *)
Fixpoint read_answer (inp : list string) : option (Answer * list string) :=
  match inp with
  | [] => None
  | x :: r =>
      if existsb (String.eqb x) ["y"; "n"; "?"; "py"; "pn"; "u"] then Some (x, r)
      else read_answer r
  end.

Fixpoint ask_yes_no (inp : list string) : option (bool * list string) :=
  match inp with
  | [] => None
  | x :: r =>
      if existsb (String.eqb x) ["y"; "n"] then Some (String.eqb x "y", r)
      else ask_yes_no r
  end.

Definition all_languages : list string :=
  ["language_en"; "language_fr"; "language_ja"; "language_es";
   "language_de"; "language_it"; "language_ko"; "language_zh"].

(** [if state.guess_cooldown > 0: state.guess_cooldown -= 1]. *)
Definition tick_cooldown (s : EngineState) : EngineState :=
  if (0 <? guess_cooldown s)%Z then set_guess_cooldown (guess_cooldown s - 1) s else s.

(** The bookkeeping of a regular answer, from [state.asked.add(q.key)] to the
    cooldown, before [update_state_with_answer]. *)
Definition record_answer (q : Question) (ans : Answer) (s : EngineState) : EngineState :=
  let s := set_asked ({[key q]} ∪ asked s) s in
  let types := recent_question_types s ++ [get_question_type q] in
  let s := set_recent_question_types
             (if (10 <? length types)%nat then last_n 10 types else types) s in
  let s :=
    if (String.eqb ans "y" && startswith (key q) "language_")%bool
    then set_asked
           (asked s ∪ list_to_set (List.filter (fun l => negb (String.eqb l (key q))) all_languages))
           s
    else s in
  let s := set_question_count (question_count s + 1) s in
  let s := set_consecutive_guesses 0 s in
  tick_cooldown s.

Definition answer_question (args : Args) (q : Question) (ans : Answer) (s : EngineState)
    : EngineState :=
  update_state_with_answer (record_answer q ans s) q ans (max_strikes args).

(** The bookkeeping of an answer to a targeted question. *)
Definition record_targeted_answer (tq : Question) (s : EngineState) : EngineState :=
  let s := set_asked ({[key tq]} ∪ asked s) s in
  let s := set_question_count (question_count s + 1) s in
  let s := set_consecutive_guesses 0 s in
  tick_cooldown s.

Definition answer_targeted_question (args : Args) (tq : Question) (ans : Answer)
    (s : EngineState) : EngineState :=
  update_state_with_answer (record_targeted_answer tq s) tq ans (max_strikes args).

(** [top_streak_mid = movie_id(state.candidates[0]) if state.candidates else None]. *)
Definition top_id (s : EngineState) : option Z :=
  match candidates s with
  | c :: _ => movie_id c
  | [] => None
  end.

(** After a guess was refused: the guessed row leaves the pool (when it has
    an identifier), the cooldown starts, the streak restarts. *)
Definition reject_guess (args : Args) (mid : option Z) (s : EngineState) : EngineState :=
  let s := match mid with Some i => eliminate_movie s i | None => s end in
  let s := sort_candidates s in
  let s := set_guess_cooldown (args_guess_cooldown args) s in
  let s := set_top_streak (top_id s) 0 s in
  set_consecutive_guesses (consecutive_guesses s + 1) s.

(** The streak after an answer, for a top row with identifier [mid]. *)
Definition update_streak (mid : Z) (s : EngineState) : EngineState :=
  if bool_decide (top_streak_mid s = Some mid)
  then set_top_streak (top_streak_mid s) (top_streak_len s + 1) s
  else set_top_streak (Some mid) 1 s.

(** [for tq in targeted_questions: ...]: where the loop leaves the session
    and the input ([None] when the input ends), and what the user saw. *)
Fixpoint targeted_loop (args : Args) (tqs : list Question) (sess : Session)
    (inp : list string) : option (Session * list string) * list event :=
  match tqs with
  | [] => (Some (sess, inp), [])
  | tq :: rest =>
      if (consecutive_guesses (state sess) <? max_consecutive_guesses args)%Z
      then (Some (sess, inp), [])
      else
        match read_answer inp with
        | None => (None, [EvQuestion tq])
        | Some (ans, inp') =>
            if String.eqb ans "u" then
              match history sess with
              | [] =>
                  let r := targeted_loop args rest sess inp' in
                  (fst r, EvQuestion tq :: EvNoHistory :: snd r)
              | h :: hs =>
                  let r := targeted_loop args rest {| state := h; history := hs |} inp' in
                  (fst r, EvQuestion tq :: EvUndone :: snd r)
              end
            else
              let r := targeted_loop args rest
                         {| state := answer_targeted_question args tq ans (state sess);
                            history := snapshot_state (state sess) :: history sess |}
                         inp' in
              (fst r, EvQuestion tq :: snd r)
        end
  end.

Definition targeted_block (args : Args) (w : World) (sess : Session) (inp : list string)
    : flow * list event :=
  let st := state sess in
  if (max_consecutive_guesses args <=? consecutive_guesses st)%Z then
    let tqs := get_discriminating_questions (w_log2 w)
                 (w_gathered_questions w (candidates st) (asked st))
                 (candidates st) (asked st) 3 in
    match targeted_loop args tqs sess inp with
    | (Some (s', inp'), log) => (Next s' inp', log)
    | (None, log) => (Stop EndOfInput, log)
    end
  else (Next sess inp, []).

(** [if should_enter_guess_mode(state) and state.guess_cooldown == 0: ...]. *)
Definition guess_block (args : Args) (sess : Session) (inp : list string)
    : flow * list event :=
  let st := state sess in
  if (should_enter_guess_mode st && (guess_cooldown st =? 0)%Z)%bool then
    match candidates st with
    | [] => (Stop Raise, [])
    | top :: _ =>
        match ask_yes_no inp with
        | None => (Stop EndOfInput, [EvGuess top])
        | Some (true, _) => (Stop Return, [EvGuess top; EvFound top])
        | Some (false, inp') =>
            (Stop (Continue {| state := reject_guess args (movie_id top) st;
                               history := history sess |} inp'),
             [EvGuess top])
        end
    end
  else (Next sess inp, []).

(** No question is left: the user picks a row or eliminates the first. *)
Definition manual_block (sess : Session) (inp : list string) : outcome * list event :=
  let st := state sess in
  match candidates st with
  | [m] => (Return, [EvFound m])
  | _ =>
      match inp with
      | [] => (EndOfInput, [])
      | choice :: inp' =>
          if existsb (String.eqb choice) ["1"; "2"; "3"; "4"; "5"] then
            let idx := (nat_of_ascii (match choice with String c _ => c | _ => "1"%char end) - 49)%nat in
            match nth_error (candidates st) idx with
            | Some m => (Return, [EvFound m])
            | None => (Raise, [])
            end
          else if String.eqb choice "e" then
            match candidates st with
            | [] => (Raise, [])
            | top :: _ =>
                let s := match movie_id top with
                         | Some mid => eliminate_movie st mid
                         | None => st
                         end in
                (Continue {| state := sort_candidates s; history := history sess |} inp', [])
            end
          else (Continue sess inp', [])
      end
  end.

(** From the choice of the question to the end of the loop body. *)
Definition question_block (args : Args) (w : World) (sess : Session) (inp : list string)
    : outcome * list event :=
  let st := state sess in
  let merged := w_merged_questions w (candidates st) (asked st) in
  match choose_best_question (w_log2 w) (w_random w) (candidates st) merged (asked st)
          (question_count st =? 0)%Z (Some st) with
  | None => manual_block sess inp
  | Some q =>
      match read_answer inp with
      | None => (EndOfInput, [EvQuestion q])
      | Some (ans, inp') =>
          if String.eqb ans "u" then
            match history sess with
            | [] => (Continue sess inp', [EvQuestion q; EvNoHistory])
            | h :: hs => (Continue {| state := h; history := hs |} inp', [EvQuestion q; EvUndone])
            end
          else
            let hist := snapshot_state st :: history sess in
            let st1 := answer_question args q ans st in
            match candidates st1 with
            | [] => (Raise, [EvQuestion q])
            | top :: _ =>
                match movie_id top with
                | None => (Continue {| state := st1; history := hist |} inp', [EvQuestion q])
                | Some mid =>
                    let st2 := update_streak mid st1 in
                    if ((9 <=? top_streak_len st2)%Z && (guess_cooldown st2 =? 0)%Z)%bool then
                      match ask_yes_no inp' with
                      | None => (EndOfInput, [EvQuestion q; EvGuess top])
                      | Some (true, _) => (Return, [EvQuestion q; EvGuess top; EvFound top])
                      | Some (false, inp'') =>
                          (Continue {| state := reject_guess args (Some mid) st2;
                                       history := hist |} inp'',
                           [EvQuestion q; EvGuess top])
                      end
                    else (Continue {| state := st2; history := hist |} inp', [EvQuestion q])
                end
            end
      end
  end.

(** One pass through the body of [while True]. *)
Definition iteration (args : Args) (w : World) (sess : Session) (inp : list string)
    : outcome * list event :=
  match candidates (state sess) with
  | [] => (Return, [EvExhausted])
  | [m] => (Return, [EvFound m])
  | _ =>
      match targeted_block args w sess inp with
      | (Stop o, log1) => (o, log1)
      | (Next s1 inp1, log1) =>
          match guess_block args s1 inp1 with
          | (Stop o, log2) => (o, log1 ++ log2)
          | (Next s2 inp2, log2) =>
              let '(o, log3) := question_block args w s2 inp2 in
              (o, log1 ++ log2 ++ log3)
          end
      end
  end.

(** The loop, for at most [fuel] passes: the session it stops in (the last
    one before a return, an exception or the end of the input) and what the
    user saw. *)
Fixpoint run (fuel : nat) (args : Args) (w : World) (sess : Session) (inp : list string)
    : Session * list event :=
  match fuel with
  | O => (sess, [])
  | S fuel' =>
      match iteration args w sess inp with
      | (Continue s' inp', log) =>
          let '(s'', log') := run fuel' args w s' inp' in (s'', log ++ log')
      | (_, log) => (sess, log)
      end
  end.

(** [main] up to the loop: the initial session for the rows loaded. *)
Definition initial_session (movies : list movie) : Session :=
  let s := sort_candidates (init_state movies) in
  {| state := set_top_streak (top_id s) 0 s; history := [] |}.

(* ===================================================================== *)
(** ** Predicates of the library *)
(* ===================================================================== *)

(** [pred_language]. *)
Definition pred_language (lang_code : string) (m : movie) : option bool :=
  match mv_original_language m with
  | None => None
  | Some lang => if String.eqb lang "" then None else Some (String.eqb lang lang_code)
  end.

(** [any(fn in kw.get("name", "").lower() for kw in keywords)]. *)
Definition keyword_mentions (needles : list string) (kws : list keyword) : bool :=
  existsb (fun kw => existsb (fun n => contains n (lower (kw_name kw))) needles) kws.

(** [pred_franchise_name]: the title, then the collection, then the keywords;
    [False] only when the record has a collection or keywords. *)
Definition pred_franchise_name (conn : gmap Z details) (franchise : string) (m : movie)
    : option bool :=
  let fn := lower franchise in
  match movie_id m with
  | None => None
  | Some mid =>
      if contains fn (lower (py_str (mv_title m))) then Some true
      else
        let d := get_details conn mid in
        let collection := belongs_to_collection d in
        if match collection with
           | Some c => contains fn (lower (py_str (col_name c)))
           | None => false
           end then Some true
        else if keyword_mentions [fn] (keywords d) then Some true
        else if (match collection with Some _ => true | None => false end
                 || match keywords d with [] => false | _ => true end)%bool
        then Some false
        else None
  end.

(** [pred_is_harry_potter]: the title, the collection, the keywords, then two
    of the three leading actors among the first five of the cast; [False]
    otherwise. *)
Definition pred_is_harry_potter (conn : gmap Z details) (m : movie) : option bool :=
  if contains "harry potter" (lower (py_str (mv_title m))) then Some true
  else
    match movie_id m with
    | None => None
    | Some mid =>
        let d := get_details conn mid in
        if match belongs_to_collection d with
           | Some c =>
               let col_name := lower (py_str (col_name c)) in
               (contains "harry potter" col_name || contains "wizarding world" col_name)%bool
           | None => false
           end then Some true
        else if keyword_mentions ["harry potter"; "hogwarts"] (keywords d) then Some true
        else
          let top_actors := map (fun c => lower (cast_name c)) (firstn 5 (credits_cast d)) in
          let hp_actors := ["daniel radcliffe"; "emma watson"; "rupert grint"] in
          let matches :=
            length (List.filter (fun actor => existsb (contains actor) top_actors) hp_actors) in
          if (2 <=? matches)%nat then Some true else Some false
    end.

(** [pred_keyword]: the keyword in the names joined by spaces. *)
Definition pred_keyword (conn : gmap Z details) (kw : string) (m : movie) : option bool :=
  let k := lower kw in
  match movie_id m with
  | None => None
  | Some mid =>
      let names := map (fun x => lower (kw_name x)) (keywords (get_details conn mid)) in
      Some (contains k (String.concat " " names))
  end.

(** [pred_actor_in_cast]: [None] for an empty cast. *)
Definition pred_actor_in_cast (conn : gmap Z details) (actor_name : string) (m : movie)
    : option bool :=
  let an := lower actor_name in
  match movie_id m with
  | None => None
  | Some mid =>
      match credits_cast (get_details conn mid) with
      | [] => None
      | cast => Some (existsb (fun c => String.eqb an (lower (cast_name c))) cast)
      end
  end.

(** [pred_has_director]: [None] for an empty crew. *)
Definition pred_has_director (conn : gmap Z details) (director_name : string) (m : movie)
    : option bool :=
  let dn := lower director_name in
  match movie_id m with
  | None => None
  | Some mid =>
      match credits_crew (get_details conn mid) with
      | [] => None
      | crew =>
          Some (existsb (fun c => String.eqb dn (lower (crew_name c)))
                  (List.filter (fun c => String.eqb (crew_job c) "Director") crew))
      end
  end.

(** A question without dependencies, as [default_questions] builds most. *)
Definition question (k t : string) (p : movie -> option bool) : Question :=
  {| key := k; text := t; predicate := p; requires := None; excludes := None |}.

(** The language questions of [default_questions]. *)
Definition language_questions : list Question :=
  [question "language_en" "La langue originale est-elle l'anglais ?" (pred_language "en");
   question "language_fr" "La langue originale est-elle le français ?" (pred_language "fr");
   question "language_ja" "La langue originale est-elle le japonais ?" (pred_language "ja");
   question "language_es" "La langue originale est-elle l'espagnol ?" (pred_language "es");
   question "language_de" "La langue originale est-elle l'allemand ?" (pred_language "de");
   question "language_it" "La langue originale est-elle l'italien ?" (pred_language "it");
   question "language_ko" "La langue originale est-elle le coréen ?" (pred_language "ko");
   question "language_zh" "La langue originale est-elle le chinois ?" (pred_language "zh")].

(** The keys of [default_questions], in its order. *)
Definition default_question_keys : list string :=
  ["is_animation"; "is_live_action"; "is_short"; "is_feature";
   "decade_1970s"; "decade_1980s"; "decade_1990s"; "decade_2000s"; "decade_2010s";
   "decade_2020s"; "before_2000"; "after_2010";
   "genre_action"; "genre_adventure"; "genre_comedy"; "genre_drama"; "genre_fantasy";
   "genre_horror"; "genre_mystery"; "genre_romance"; "genre_scifi"; "genre_thriller";
   "genre_crime"; "genre_family"; "genre_war"; "genre_history"; "genre_music";
   "genre_documentary"; "is_adult"; "runtime_lt_90"; "runtime_ge_150";
   "is_american"; "is_french"; "is_european"; "is_asian";
   "language_en"; "language_fr"; "language_ja"; "language_es";
   "language_de"; "language_it"; "language_ko"; "language_zh";
   "popular"; "very_popular"; "big_budget"; "small_budget"; "box_office_success";
   "is_indie"; "is_saga"; "is_standalone"; "is_adaptation"; "based_on_book";
   "based_on_comic"; "based_on_true_story"; "superhero";
   "joker_title_a_d"; "joker_title_e_h"; "joker_title_i_l"; "joker_title_m_p";
   "joker_title_q_t"; "joker_title_u_z";
   "director_nolan"; "director_spielberg"; "director_tarantino"; "director_scorsese";
   "director_fincher"; "director_cameron"; "director_jackson"; "director_ridley_scott";
   "director_chris_columbus"; "director_david_yates";
   "franchise_marvel"; "franchise_star_wars"; "franchise_harry_potter";
   "franchise_wizarding_world"; "franchise_lord_rings"; "franchise_hobbit";
   "franchise_batman"; "franchise_bond"; "franchise_jurassic"; "franchise_fast_furious";
   "franchise_pirates"; "franchise_xmen"; "franchise_avengers"; "franchise_dc";
   "char_batman"; "char_superman"; "char_spider_man"; "char_iron_man";
   "char_captain_america"; "char_joker"; "char_terminator"; "char_harry_potter";
   "char_frodo"; "char_jack_sparrow";
   "actor_tom_hanks"; "actor_leonardo_dicaprio"; "actor_brad_pitt"; "actor_meryl_streep";
   "actor_robert_de_niro"; "actor_al_pacino"; "actor_johnny_depp"; "actor_will_smith";
   "actor_denzel_washington"; "actor_morgan_freeman"; "actor_samuel_l_jackson";
   "actor_scarlett_johansson"; "actor_daniel_radcliffe"; "actor_emma_watson";
   "actor_rupert_grint"; "actor_alan_rickman"; "actor_elijah_wood"; "actor_orlando_bloom";
   "theme_school"; "theme_magic_school"; "theme_wizard"; "theme_prophecy";
   "theme_chosen_one"; "theme_good_vs_evil"; "theme_friendship"; "theme_coming_of_age"].

(* ===================================================================== *)
(** ** The state as Python objects *)
(* ===================================================================== *)

(** The engine works on one mutable [EngineState] object: its container
    fields hold references to a list, a set and dicts that are updated in
    place or replaced by new objects.  [Store] follows the references: what
    [snapshot_state] copies, what the answer of a turn writes, and where. *)
Module Store.

(** References. *)
Abbreviation loc := positive (only parsing).

(** An [EngineState] instance: references for the containers, values for the
    integers. *)
Record state_obj := {
  o_candidates : loc;
  o_asked : loc;
  o_scores : loc;
  o_strikes : loc;
  o_question_count : Z;
  o_guess_cooldown : Z;
  o_top_streak_mid : option Z;
  o_top_streak_len : Z;
  o_consecutive_guesses : Z;
  o_recent_question_types : loc;
}.

Inductive obj :=
| OList (l : list movie)
| OSet (s : gset string)
| OScores (d : gmap Z float)
| OStrikes (d : gmap Z Z)
| OTypes (l : list string)
| OState (s : state_obj).

Abbreviation heap := (gmap loc obj) (only parsing).

(** Computations on the heap; [None] is a reference to nothing or to an
    object of another class. *)
Definition M (A : Type) : Type := heap -> option (A * heap).

Definition ret {A} (x : A) : M A := fun h => Some (x, h).

Definition bind {A B} (m : M A) (f : A -> M B) : M B :=
  fun h => match m h with
           | Some (x, h') => f x h'
           | None => None
           end.

Notation "'let!' x ':=' m 'in' k" := (bind m (fun x => k))
  (at level 10, x name, m at level 100, k at level 200).
Notation "'do!' m 'in' k" := (bind m (fun _ => k))
  (at level 10, m at level 100, k at level 200).

(** A new object. *)
Definition alloc (o : obj) : M loc :=
  fun h => let l := fresh (dom h) in Some (l, <[l := o]> h).

Definition get_list (l : loc) : M (list movie) :=
  fun h => match h !! l with Some (OList x) => Some (x, h) | _ => None end.
Definition get_set (l : loc) : M (gset string) :=
  fun h => match h !! l with Some (OSet x) => Some (x, h) | _ => None end.
Definition get_scores (l : loc) : M (gmap Z float) :=
  fun h => match h !! l with Some (OScores x) => Some (x, h) | _ => None end.
Definition get_strikes (l : loc) : M (gmap Z Z) :=
  fun h => match h !! l with Some (OStrikes x) => Some (x, h) | _ => None end.
Definition get_types (l : loc) : M (list string) :=
  fun h => match h !! l with Some (OTypes x) => Some (x, h) | _ => None end.
Definition get_state (l : loc) : M state_obj :=
  fun h => match h !! l with Some (OState x) => Some (x, h) | _ => None end.

(** An update in place of the object at [l]. *)
Definition put (l : loc) (o : obj) : M unit :=
  fun h => Some (tt, <[l := o]> h).

(** Assignments to the fields of the state object. *)
Definition with_candidates (l : loc) (s : state_obj) : state_obj :=
  {| o_candidates := l; o_asked := o_asked s; o_scores := o_scores s;
     o_strikes := o_strikes s; o_question_count := o_question_count s;
     o_guess_cooldown := o_guess_cooldown s; o_top_streak_mid := o_top_streak_mid s;
     o_top_streak_len := o_top_streak_len s;
     o_consecutive_guesses := o_consecutive_guesses s;
     o_recent_question_types := o_recent_question_types s |}.

Definition with_scores (l : loc) (s : state_obj) : state_obj :=
  {| o_candidates := o_candidates s; o_asked := o_asked s; o_scores := l;
     o_strikes := o_strikes s; o_question_count := o_question_count s;
     o_guess_cooldown := o_guess_cooldown s; o_top_streak_mid := o_top_streak_mid s;
     o_top_streak_len := o_top_streak_len s;
     o_consecutive_guesses := o_consecutive_guesses s;
     o_recent_question_types := o_recent_question_types s |}.

Definition with_strikes (l : loc) (s : state_obj) : state_obj :=
  {| o_candidates := o_candidates s; o_asked := o_asked s; o_scores := o_scores s;
     o_strikes := l; o_question_count := o_question_count s;
     o_guess_cooldown := o_guess_cooldown s; o_top_streak_mid := o_top_streak_mid s;
     o_top_streak_len := o_top_streak_len s;
     o_consecutive_guesses := o_consecutive_guesses s;
     o_recent_question_types := o_recent_question_types s |}.

Definition with_recent_question_types (l : loc) (s : state_obj) : state_obj :=
  {| o_candidates := o_candidates s; o_asked := o_asked s; o_scores := o_scores s;
     o_strikes := o_strikes s; o_question_count := o_question_count s;
     o_guess_cooldown := o_guess_cooldown s; o_top_streak_mid := o_top_streak_mid s;
     o_top_streak_len := o_top_streak_len s;
     o_consecutive_guesses := o_consecutive_guesses s;
     o_recent_question_types := l |}.

Definition with_counters (qc gc : Z) (tm : option Z) (tl cg : Z) (s : state_obj) : state_obj :=
  {| o_candidates := o_candidates s; o_asked := o_asked s; o_scores := o_scores s;
     o_strikes := o_strikes s; o_question_count := qc;
     o_guess_cooldown := gc; o_top_streak_mid := tm;
     o_top_streak_len := tl;
     o_consecutive_guesses := cg;
     o_recent_question_types := o_recent_question_types s |}.

(** [snapshot_state]: a new state object whose containers are new objects,
    [list(...)], [set(...)] and [dict(...)] of the current ones. *)
Definition snapshot_state (s : loc) : M loc :=
  let! st := get_state s in
  let! c := get_list (o_candidates st) in
  let! c' := alloc (OList c) in
  let! a := get_set (o_asked st) in
  let! a' := alloc (OSet a) in
  let! sc := get_scores (o_scores st) in
  let! sc' := alloc (OScores sc) in
  let! sk := get_strikes (o_strikes st) in
  let! sk' := alloc (OStrikes sk) in
  let! ts := get_types (o_recent_question_types st) in
  let! ts' := alloc (OTypes ts) in
  alloc (OState {| o_candidates := c'; o_asked := a'; o_scores := sc'; o_strikes := sk';
                   o_question_count := o_question_count st;
                   o_guess_cooldown := o_guess_cooldown st;
                   o_top_streak_mid := o_top_streak_mid st;
                   o_top_streak_len := o_top_streak_len st;
                   o_consecutive_guesses := o_consecutive_guesses st;
                   o_recent_question_types := ts' |}).

(** [state.asked.add(k)], for each [k] of [ks]. *)
Definition asked_add (s : loc) (ks : gset string) : M unit :=
  let! st := get_state s in
  let! a := get_set (o_asked st) in
  put (o_asked st) (OSet (ks ∪ a)).

(** [state.recent_question_types.append(t)], then the slice that keeps the
    last ten in a new list. *)
Definition types_append (s : loc) (t : string) : M unit :=
  let! st := get_state s in
  let! ts := get_types (o_recent_question_types st) in
  do! put (o_recent_question_types st) (OTypes (ts ++ [t])) in
  if (10 <? length (ts ++ [t]))%nat then
    let! l := alloc (OTypes (last_n 10 (ts ++ [t]))) in
    put s (OState (with_recent_question_types l st))
  else ret tt.

(** Assignments to the integer fields. *)
Definition set_counters (s : loc) (f : state_obj -> state_obj) : M unit :=
  let! st := get_state s in
  put s (OState (f st)).

Definition tick (st : state_obj) : state_obj :=
  if (0 <? o_guess_cooldown st)%Z
  then with_counters (o_question_count st) (o_guess_cooldown st - 1) (o_top_streak_mid st)
         (o_top_streak_len st) (o_consecutive_guesses st) st
  else st.

(** The bookkeeping of a regular answer in [main]. *)
Definition record_answer (q : Question) (ans : Answer) (s : loc) : M unit :=
  do! asked_add s {[key q]} in
  do! types_append s (get_question_type q) in
  do! (if (String.eqb ans "y" && startswith (key q) "language_")%bool
       then asked_add s (list_to_set
                           (List.filter (fun l => negb (String.eqb l (key q))) all_languages))
       else ret tt) in
  set_counters s (fun st =>
    tick (with_counters (o_question_count st + 1) (o_guess_cooldown st) (o_top_streak_mid st)
            (o_top_streak_len st) 0 st)).

(** A loop of [update_state_with_answer] that writes [state.scores[mid]]:
    the dict is updated in place. *)
Definition scores_loop (rule : option bool -> verdict) (q : Question) (s : loc)
    : M (list movie) :=
  let! st := get_state s in
  let! c := get_list (o_candidates st) in
  let! sc := get_scores (o_scores st) in
  do! put (o_scores st) (OScores (snd (answer_loop rule (predicate q) c sc))) in
  ret (fst (answer_loop rule (predicate q) c sc)).

(** [state.candidates = to_keep] and the two dict comprehensions: three new
    objects. *)
Definition replace_pool (to_keep : list movie) (s : loc) : M unit :=
  let! st := get_state s in
  let! sc := get_scores (o_scores st) in
  let! sk := get_strikes (o_strikes st) in
  let! c' := alloc (OList to_keep) in
  let! sc' := alloc (OScores (keep_ids (remaining_ids to_keep) sc)) in
  let! sk' := alloc (OStrikes (keep_ids (remaining_ids to_keep) sk)) in
  put s (OState (with_strikes sk' (with_scores sc' (with_candidates c' st)))).

Definition apply_answer (q : Question) (ans : Answer) (s : loc) : M unit :=
  let hard := is_hard_elimination (key q) in
  if String.eqb ans "y" then
    let! to_keep := scores_loop rule_y q s in replace_pool to_keep s
  else if String.eqb ans "n" then
    let! to_keep := scores_loop rule_n q s in replace_pool to_keep s
  else if String.eqb ans "py" then do! scores_loop (rule_py hard) q s in ret tt
  else if String.eqb ans "pn" then do! scores_loop (rule_pn hard) q s in ret tt
  else if String.eqb ans "?" then do! scores_loop rule_unknown q s in ret tt
  else ret tt.

(** The removal by strikes: a new list for the pool, [pop] on the dicts. *)
Definition strike_removal (max_strikes : Z) (s : loc) : M unit :=
  let! st := get_state s in
  let! c := get_list (o_candidates st) in
  let! sc := get_scores (o_scores st) in
  let! sk := get_strikes (o_strikes st) in
  match to_remove sk max_strikes c with
  | [] => ret tt
  | tr =>
      let! c' := alloc (OList (List.filter (fun m => negb (id_in (movie_id m) tr)) c)) in
      do! put s (OState (with_candidates c' st)) in
      do! put (o_scores st) (OScores (pop_all tr sc)) in
      put (o_strikes st) (OStrikes (pop_all tr sk))
  end.

(** [state.candidates.sort(key=key_func)]: in place. *)
Definition sort_candidates (s : loc) : M unit :=
  let! st := get_state s in
  let! c := get_list (o_candidates st) in
  let! sc := get_scores (o_scores st) in
  put (o_candidates st) (OList (sorted_candidates sc c)).

Definition update_state_with_answer (q : Question) (ans : Answer) (max_strikes : Z)
    (s : loc) : M unit :=
  do! apply_answer q ans s in
  do! (if is_hard_elimination (key q) then ret tt else strike_removal max_strikes s) in
  sort_candidates s.

(** A regular turn of [main] from [history.append(snapshot_state(state))] to
    the call of [update_state_with_answer]: the reference appended to
    [history]. *)
Definition answer_turn (args : Args) (q : Question) (ans : Answer) (s : loc) : M loc :=
  let! snap := snapshot_state s in
  do! record_answer q ans s in
  do! update_state_with_answer q ans (max_strikes args) s in
  ret snap.

(** What a reference to a state object stands for: the state read through
    its fields. *)
Definition view (h : heap) (s : loc) : option EngineState :=
  match h !! s with
  | Some (OState st) =>
      match h !! o_candidates st, h !! o_asked st, h !! o_scores st,
            h !! o_strikes st, h !! o_recent_question_types st with
      | Some (OList c), Some (OSet a), Some (OScores sc), Some (OStrikes sk), Some (OTypes ts) =>
          Some {| candidates := c; asked := a; scores := sc; strikes := sk;
                  question_count := o_question_count st;
                  guess_cooldown := o_guess_cooldown st;
                  top_streak_mid := o_top_streak_mid st;
                  top_streak_len := o_top_streak_len st;
                  consecutive_guesses := o_consecutive_guesses st;
                  recent_question_types := ts |}
      | _, _, _, _, _ => None
      end
  | _ => None
  end.

(** The objects a state is read through. *)
Definition footprint (h : heap) (s : loc) : gset loc :=
  match h !! s with
  | Some (OState st) =>
      {[s; o_candidates st; o_asked st; o_scores st; o_strikes st;
        o_recent_question_types st]}
  | _ => {[s]}
  end.

End Store.

(* ===================================================================== *)
(** ** Example rows, questions and sessions *)
(* ===================================================================== *)

Definition row (i : Z) (t : string) (pop : float) (lang : string) : movie :=
  {| mv_id := Some i; mv_title := Some t; mv_popularity := Some pop;
     mv_original_language := Some lang |}.

Definition inception : movie := row 27205 "Inception" 90.0%float "en".
Definition amelie : movie := row 194 "Amelie" 40.0%float "fr".
Definition intouchables : movie := row 77338 "Intouchables" 60.0%float "fr".
Definition parasite : movie := row 496243 "Parasite" 80.0%float "ko".

(** A row whose language is not recorded. *)
Definition untitled : movie :=
  {| mv_id := Some 7; mv_title := Some "Sans titre"; mv_popularity := Some 1.0%float;
     mv_original_language := None |}.

Definition language_en : Question :=
  question "language_en" "La langue originale est-elle l'anglais ?" (pred_language "en").
Definition language_fr : Question :=
  question "language_fr" "La langue originale est-elle le français ?" (pred_language "fr").

(** A soft question (its key is in no hard-elimination class): is the
    popularity at least 50? *)
Definition popular : Question :=
  question "popular" "Est-ce que c'est un film très populaire ?"
    (fun m => match mv_popularity m with
              | Some v => Some (PrimFloat.leb 50.0%float v)
              | None => None
              end).

(** A database without enriched rows: every [get_details] is [{}]. *)
Definition no_details : gmap Z details := ∅.

(** [math.log2] at 1 and at one half, where it is 0 and -1.  The example
    sessions evaluate it nowhere else: a NaN would leave every score
    comparison false and no question to choose. *)
Definition log2_dyadic (x : float) : float :=
  if PrimFloat.eqb x 1.0 then 0.0%float
  else if PrimFloat.eqb x 0.5 then (-1.0)%float
  else PrimFloat.nan.

(** A world whose questions are the language questions of the registry. *)
Definition language_world : World :=
  {| w_log2 := log2_dyadic;
     w_merged_questions := fun _ _ => language_questions;
     w_gathered_questions := fun _ _ => language_questions;
     w_random := 0 |}.

(** The keys of the questions put to the user, in order. *)
Definition questions_asked (log : list event) : list string :=
  omap (fun e => match e with EvQuestion q => Some (key q) | _ => None end) log.

(** The rows offered as a guess ([ask_yes_no]), in order. *)
Definition guesses_offered (log : list event) : list movie :=
  omap (fun e => match e with EvGuess m => Some m | _ => None end) log.

(** Whether an undo took place. *)
Definition undone (log : list event) : bool :=
  existsb (fun e => match e with EvUndone => true | _ => false end) log.

(** The sessions [main] can be in at the top of its loop, for the rows
    loaded. *)
Inductive reachable (args : Args) (w : World) (movies : list movie) : Session -> Prop :=
| reachable_init : reachable args w movies (initial_session movies)
| reachable_step sess inp sess' inp' log :
    reachable args w movies sess ->
    iteration args w sess inp = (Continue sess' inp', log) ->
    reachable args w movies sess'.

Definition memento : movie := row 77 "Memento" 10.0%float "en".

(** A world whose questions are the language questions and "popular". *)
Definition quiz_world : World :=
  {| w_log2 := log2_dyadic;
     w_merged_questions := fun _ _ => language_questions ++ [popular];
     w_gathered_questions := fun _ _ => language_questions ++ [popular];
     w_random := 0 |}.

(** Whether a question of the log was taken back or left unanswered ("u"). *)
Definition retracted (log : list event) : bool :=
  existsb (fun e => match e with EvUndone | EvNoHistory => true | _ => false end) log.

(* ===================================================================== *)
(** ** Vocabulary of the statements *)
(* ===================================================================== *)

(** The rows a loop of [update_state_with_answer] appends to [to_keep]: those
    with an identifier for which a branch of the [if] is taken. *)
Definition kept (rule : option bool -> verdict) (p : movie -> option bool) (m : movie) : bool :=
  match movie_id m with
  | None => false
  | Some _ => match rule (p m) with Nothing => false | _ => true end
  end.



(** A row known to the pool whose identifier has no enriched record. *)
Definition orphan : movie := row 42 "Inception" 90.0%float "en".

(** A property of the engine state that holds of the live state and of every
    snapshot in the history. *)
Definition session_inv (P : EngineState -> Prop) (sess : Session) : Prop :=
  P (state sess) /\ Forall P (history sess).

(** [P] is kept by every way [main] changes the state (a guess is refused
    only when the cooldown is 0). *)
Record preserved (args : Args) (P : EngineState -> Prop) : Prop := {
  pres_answer : forall q ans st, P st -> P (answer_question args q ans st);
  pres_targeted : forall q ans st, P st -> P (answer_targeted_question args q ans st);
  pres_streak : forall mid st, P st -> P (update_streak mid st);
  pres_reject : forall mid st, P st -> guess_cooldown st = 0 -> P (reject_guess args mid st);
  pres_eliminate : forall mid st, P st -> P (sort_candidates (eliminate_movie st mid));
  pres_sort : forall st, P st -> P (sort_candidates st);
}.

(** [R] relates a state to the state after any change [main] makes to it,
    undo apart. *)
Record monotone (args : Args) (R : EngineState -> EngineState -> Prop) : Prop := {
  mono_refl : forall st, R st st;
  mono_trans : forall a b c, R a b -> R b c -> R a c;
  mono_answer : forall q ans st, R st (answer_question args q ans st);
  mono_targeted : forall q ans st, R st (answer_targeted_question args q ans st);
  mono_streak : forall mid st, R st (update_streak mid st);
  mono_reject : forall mid st, R st (reject_guess args mid st);
  mono_eliminate : forall mid st, R st (sort_candidates (eliminate_movie st mid));
  mono_sort : forall st, R st (sort_candidates st);
}.

(** Guesses in a row: after a refused guess the cooldown holds the next one
    back until a question was answered, which resets the count. *)
Definition guess_count_inv (args : Args) (st : EngineState) : Prop :=
  consecutive_guesses st = 0
  \/ (consecutive_guesses st = 1 /\ guess_cooldown st = args_guess_cooldown args).

(** What a computation on the object [s] may do to the heap: objects are
    only added; an object that [s] is not read through keeps its value; and
    [s] is read through the objects it was read through before or through
    new ones. *)
Definition frame (h h' : gmap Store.loc Store.obj) (s : Store.loc) : Prop :=
  dom h ⊆ dom h'
  /\ (forall l, l ∈ dom h -> l ∉ Store.footprint h s -> h' !! l = h !! l)
  /\ Store.footprint h' s ⊆ Store.footprint h s ∪ (dom h' ∖ dom h).

(** [m], run on a heap where [s] stands for the state [v], succeeds, returns
    [g v], leaves [s] standing for [f v], and respects the frame. *)
Definition op_spec {A} (m : Store.M A) (s : Store.loc)
    (f : EngineState -> EngineState) (g : EngineState -> A) : Prop :=
  forall h v, Store.view h s = Some v ->
    exists h', m h = Some (g v, h') /\ Store.view h' s = Some (f v) /\ frame h h' s.

(** A heap with one state object: the initial state of two rows. *)
Definition example_heap : gmap Store.loc Store.obj :=
  <[6%positive := Store.OState
      {| Store.o_candidates := 1%positive; Store.o_asked := 2%positive;
         Store.o_scores := 3%positive;
         Store.o_strikes := 4%positive; Store.o_question_count := 0;
         Store.o_guess_cooldown := 0; Store.o_top_streak_mid := None;
         Store.o_top_streak_len := 0; Store.o_consecutive_guesses := 0;
         Store.o_recent_question_types := 5%positive |}]>
  (<[5%positive := Store.OTypes []]>
  (<[4%positive := Store.OStrikes ∅]>
  (<[3%positive := Store.OScores (init_scores [inception; amelie] ∅)]>
  (<[2%positive := Store.OSet ∅]>
  (<[1%positive := Store.OList [inception; amelie]]> ∅))))).

(* ===================================================================== *)
(** ** Vocabulary of further statements *)
(* ===================================================================== *)

(** The state's score of a row after a verdict of a loop. *)
Definition after (v : verdict) (x : float) : float :=
  match v with
  | Add d => (x + d)%float
  | Sub d => (x - d)%float
  | Nothing => x
  end.

(** The keys of [state.scores] are the identifiers of the pool. *)
Definition scores_keyed (st : EngineState) : Prop :=
  forall mid, is_Some (scores st !! mid) <-> mid ∈ remaining_ids (candidates st).

(** The bounds the counters of the state keep. *)
Definition counters_ok (args : Args) (st : EngineState) : Prop :=
  (length (recent_question_types st) <= 10)%nat
  /\ 0 <= question_count st
  /\ 0 <= top_streak_len st
  /\ 0 <= consecutive_guesses st
  /\ (0 <= args_guess_cooldown args ->
      0 <= guess_cooldown st <= args_guess_cooldown args).

(** Each snapshot of the history was taken when as many questions had been
    answered as there are snapshots below it. *)
Fixpoint counted (hist : list EngineState) : Prop :=
  match hist with
  | [] => True
  | h :: hs => question_count h = Z.of_nat (length hs) /\ counted hs
  end.

Definition history_ok (sess : Session) : Prop :=
  question_count (state sess) = Z.of_nat (length (history sess)) /\ counted (history sess).

(* ===================================================================== *)
(** * Properties *)
(* ===================================================================== *)

(** ** Sorting permutes the pool *)

Lemma insert_by_Permutation {A} (lt : A -> A -> bool) (x : A) (l : list A) :
  Permutation (insert_by lt x l) (x :: l).
Proof.
  induction l as [|y r IH]; simpl.
  - reflexivity.
  - destruct (lt y x).
    + rewrite IH. apply perm_swap.
    + reflexivity.
Qed.

Lemma sort_by_Permutation {A} (lt : A -> A -> bool) (l : list A) :
  Permutation (sort_by lt l) l.
Proof.
  induction l as [|x r IH]; simpl.
  - reflexivity.
  - rewrite insert_by_Permutation. now rewrite IH.
Qed.

Lemma sorted_candidates_Permutation (sc : gmap Z float) (c : list movie) :
  Permutation (sorted_candidates sc c) c.
Proof. apply sort_by_Permutation. Qed.

Lemma filter_sublist {A} (f : A -> bool) (l : list A) : sublist (List.filter f l) l.
Proof.
  induction l as [|x r IH]; simpl.
  - constructor.
  - destruct (f x); now constructor.
Qed.

Lemma filter_submseteq {A} (f : A -> bool) (l : list A) : List.filter f l ⊆+ l.
Proof. apply sublist_submseteq, filter_sublist. Qed.

(** ** The loops of [update_state_with_answer] *)

Lemma answer_loop_fst rule p cands sc :
  fst (answer_loop rule p cands sc) = List.filter (kept rule p) cands.
Proof.
  revert sc. induction cands as [|m rest IH]; intros sc; simpl.
  - reflexivity.
  - unfold kept at 1. destruct (movie_id m) as [mid|].
    + destruct (rule (p m)); simpl; now rewrite ?IH.
    + apply IH.
Qed.

(** A pass of a loop leaves the score of every other identifier. *)
Lemma bump_lookup_ne sc i v mid : i <> mid -> bump sc i v !! mid = sc !! mid.
Proof. intros Hne. destruct v; simpl; now rewrite ?lookup_insert_ne. Qed.

Lemma bump_get_ne sc i v mid : i <> mid -> scores_get (bump sc i v) mid = scores_get sc mid.
Proof. intros Hne. unfold scores_get. now rewrite bump_lookup_ne. Qed.

Lemma bump_lookup_congr sc sc' mid v :
  sc !! mid = sc' !! mid -> bump sc mid v !! mid = bump sc' mid v !! mid.
Proof.
  intros Heq. destruct v; simpl; rewrite ?lookup_insert_eq; unfold scores_get;
    now rewrite ?Heq.
Qed.

Lemma answer_loop_snd_absent rule p cands sc mid :
  ~ In (Some mid) (map movie_id cands) ->
  snd (answer_loop rule p cands sc) !! mid = sc !! mid.
Proof.
  revert sc. induction cands as [|m rest IH]; intros sc Hin; simpl.
  - reflexivity.
  - simpl in Hin. destruct (movie_id m) as [i|] eqn:Hid.
    + assert (i <> mid) by (intros ->; apply Hin; now left).
      assert (Hrest : ~ In (Some mid) (map movie_id rest)) by (intros ?; apply Hin; now right).
      destruct (rule (p m)) eqn:Hr; simpl; rewrite (IH _ Hrest); try reflexivity;
        now rewrite lookup_insert_ne.
    + apply IH. intros ?; apply Hin; now right.
Qed.

(** With distinct identifiers, the loop writes the score of a row once. *)
Lemma answer_loop_snd_present rule p cands sc m mid :
  NoDup (map movie_id cands) -> In m cands -> movie_id m = Some mid ->
  snd (answer_loop rule p cands sc) !! mid = bump sc mid (rule (p m)) !! mid.
Proof.
  revert sc. induction cands as [|m0 rest IH]; intros sc Hnd Hin Hid; simpl.
  - destruct Hin.
  - simpl in Hnd. apply NoDup_cons in Hnd as [Hnotin Hnd].
    destruct Hin as [->|Hin].
    + rewrite Hid. rewrite list_elem_of_In in Hnotin. rewrite Hid in Hnotin.
      destruct (rule (p m)) eqn:Hr; simpl; rewrite answer_loop_snd_absent by exact Hnotin;
        reflexivity.
    + destruct (movie_id m0) as [i|] eqn:Hid0.
      * assert (i <> mid).
        { intros ->. apply Hnotin. rewrite list_elem_of_In, <- Hid.
          now apply in_map. }
        destruct (rule (p m0)) eqn:Hr; simpl; rewrite (IH _ Hnd Hin Hid);
          try reflexivity; apply bump_lookup_congr; now rewrite lookup_insert_ne.
      * now apply IH.
Qed.

Lemma kept_rule_y p m :
  kept rule_y p m = true <-> movie_id m <> None /\ p m <> Some false.
Proof.
  unfold kept, rule_y. destruct (movie_id m); [|intuition congruence].
  destruct (p m) as [[|]|]; intuition congruence.
Qed.

Lemma kept_rule_n p m :
  kept rule_n p m = true <-> movie_id m <> None /\ p m <> Some true.
Proof.
  unfold kept, rule_n. destruct (movie_id m); [|intuition congruence].
  destruct (p m) as [[|]|]; intuition congruence.
Qed.

(** ** The pool after an answer *)

Lemma apply_answer_candidates st q ans :
  candidates (apply_answer st q ans) =
  if String.eqb ans "y" then List.filter (kept rule_y (predicate q)) (candidates st)
  else if String.eqb ans "n" then List.filter (kept rule_n (predicate q)) (candidates st)
  else candidates st.
Proof.
  unfold apply_answer.
  destruct (String.eqb ans "y"); [simpl; apply answer_loop_fst|].
  destruct (String.eqb ans "n"); [simpl; apply answer_loop_fst|].
  destruct (String.eqb ans "py"); [reflexivity|].
  destruct (String.eqb ans "pn"); [reflexivity|].
  destruct (String.eqb ans "?"); reflexivity.
Qed.

Lemma apply_answer_submseteq st q ans :
  candidates (apply_answer st q ans) ⊆+ candidates st.
Proof.
  rewrite apply_answer_candidates.
  destruct (String.eqb ans "y"); [apply filter_submseteq|].
  destruct (String.eqb ans "n"); [apply filter_submseteq|reflexivity].
Qed.

Lemma filter_all {A} (f : A -> bool) (l : list A) :
  (forall x, In x l -> f x = true) -> List.filter f l = l.
Proof.
  induction l as [|x r IH]; intros H; simpl.
  - reflexivity.
  - rewrite (H x) by now left. f_equal. apply IH. intros y Hy. apply H. now right.
Qed.

Lemma strike_removal_candidates st ms :
  candidates (strike_removal st ms) =
  List.filter (fun m => negb (id_in (movie_id m) (to_remove (strikes st) ms (candidates st))))
    (candidates st).
Proof.
  unfold strike_removal. destruct (to_remove (strikes st) ms (candidates st)) eqn:Htr.
  - symmetry. apply filter_all. intros m _. now destruct (movie_id m).
  - reflexivity.
Qed.

Lemma strike_removal_submseteq st ms :
  candidates (strike_removal st ms) ⊆+ candidates st.
Proof. rewrite strike_removal_candidates. apply filter_submseteq. Qed.

Lemma sort_candidates_Permutation st :
  Permutation (candidates (sort_candidates st)) (candidates st).
Proof. apply sorted_candidates_Permutation. Qed.

Lemma update_state_with_answer_submseteq st q ans ms :
  candidates (update_state_with_answer st q ans ms) ⊆+ candidates st.
Proof.
  unfold update_state_with_answer.
  etransitivity; [apply Permutation_submseteq, sort_candidates_Permutation|].
  destruct (is_hard_elimination (key q)).
  - apply apply_answer_submseteq.
  - etransitivity; [apply strike_removal_submseteq|apply apply_answer_submseteq].
Qed.

Lemma eliminate_movie_submseteq st mid :
  candidates (eliminate_movie st mid) ⊆+ candidates st.
Proof. apply filter_submseteq. Qed.

(** Membership in the pool, through its multiset inclusions. *)
Lemma submseteq_In {A} (l k : list A) x : l ⊆+ k -> In x l -> In x k.
Proof. rewrite <- !list_elem_of_In. intros Hs Hx. eapply elem_of_submseteq; eauto. Qed.

Lemma Permutation_In_iff {A} (l k : list A) x : Permutation l k -> In x l <-> In x k.
Proof. intros H. split; apply Permutation_in; [exact H|now symmetry]. Qed.

(** ** Strikes are never added *)

Lemma keep_ids_subseteq {V} (ids : gset Z) (d : gmap Z V) : keep_ids ids d ⊆ d.
Proof. apply map_filter_subseteq. Qed.

Lemma pop_all_subseteq {V} (l : list Z) (d : gmap Z V) : pop_all l d ⊆ d.
Proof.
  revert d. induction l as [|i r IH]; intros d; simpl.
  - reflexivity.
  - etransitivity; [apply IH|apply delete_subseteq].
Qed.

Lemma apply_answer_strikes st q ans : strikes (apply_answer st q ans) ⊆ strikes st.
Proof.
  unfold apply_answer.
  destruct (String.eqb ans "y"); [apply keep_ids_subseteq|].
  destruct (String.eqb ans "n"); [apply keep_ids_subseteq|].
  destruct (String.eqb ans "py"); [reflexivity|].
  destruct (String.eqb ans "pn"); [reflexivity|].
  destruct (String.eqb ans "?"); reflexivity.
Qed.

Lemma strike_removal_strikes st ms : strikes (strike_removal st ms) ⊆ strikes st.
Proof.
  unfold strike_removal. destruct (to_remove (strikes st) ms (candidates st)).
  - reflexivity.
  - apply pop_all_subseteq.
Qed.

Lemma update_state_with_answer_strikes st q ans ms :
  strikes (update_state_with_answer st q ans ms) ⊆ strikes st.
Proof.
  unfold update_state_with_answer. simpl.
  destruct (is_hard_elimination (key q)).
  - apply apply_answer_strikes.
  - etransitivity; [apply strike_removal_strikes|apply apply_answer_strikes].
Qed.

Lemma subseteq_empty_map {V} (d : gmap Z V) : d ⊆ ∅ -> d = ∅.
Proof.
  intros H. apply map_eq. intros i. rewrite lookup_empty.
  destruct (d !! i) eqn:Hd; [|reflexivity].
  eapply lookup_weaken in Hd; [|exact H]. now rewrite lookup_empty in Hd.
Qed.

(** Without strikes, the removal by strikes removes nothing (the threshold is
    at least one). *)
Lemma to_remove_no_strikes ms cands : 1 <= ms -> to_remove ∅ ms cands = [].
Proof.
  intros Hms. induction cands as [|m r IH]; simpl.
  - reflexivity.
  - unfold to_remove in *. simpl. destruct (movie_id m) as [mid|]; [|exact IH].
    unfold strikes_get. rewrite lookup_empty.
    destruct (Z.leb_spec ms 0); [lia|exact IH].
Qed.

Lemma strike_removal_no_strikes st ms :
  1 <= ms -> strikes st = ∅ -> strike_removal st ms = st.
Proof.
  intros Hms Hs. unfold strike_removal. rewrite Hs, to_remove_no_strikes by exact Hms.
  reflexivity.
Qed.

(** ** C1 *)

Lemma hard_update_candidates st q ans ms :
  is_hard_elimination (key q) = true ->
  Permutation (candidates (update_state_with_answer st q ans ms))
              (candidates (apply_answer st q ans)).
Proof.
  intros Hh. unfold update_state_with_answer. rewrite Hh.
  apply sort_candidates_Permutation.
Qed.

(** C1. After "yes" to a hard-elimination question, the rows left in the pool
    are exactly the rows (with an identifier) on which the predicate is not
    [False]: none with [False] survives, those with [True] or [None] are
    retained.  After "no", they are exactly those on which it is not
    [True]. *)
Theorem hard_elimination_survivors (st : EngineState) (q : Question) (ms : Z) :
  is_hard_elimination (key q) = true ->
  (forall m, In m (candidates (update_state_with_answer st q "y" ms)) <->
             In m (candidates st) /\ movie_id m <> None /\ predicate q m <> Some false)
  /\
  (forall m, In m (candidates (update_state_with_answer st q "n" ms)) <->
             In m (candidates st) /\ movie_id m <> None /\ predicate q m <> Some true).
Proof.
  intros Hh. split; intros m.
  - rewrite (Permutation_In_iff _ _ m (hard_update_candidates st q "y" ms Hh)).
    rewrite apply_answer_candidates. simpl.
    rewrite filter_In, kept_rule_y. tauto.
  - rewrite (Permutation_In_iff _ _ m (hard_update_candidates st q "n" ms Hh)).
    rewrite apply_answer_candidates. simpl.
    rewrite filter_In, kept_rule_n. tauto.
Qed.

Lemma hard_elimination_survivors_witness :
  is_hard_elimination (key language_fr) = true
  /\ ~ In inception
       (candidates (update_state_with_answer
                      (init_state [inception; amelie; untitled]) language_fr "y" 3))
  /\ In untitled
       (candidates (update_state_with_answer
                      (init_state [inception; amelie; untitled]) language_fr "y" 3)).
Proof.
  split; [reflexivity|].
  pose proof (hard_elimination_survivors (init_state [inception; amelie; untitled])
                language_fr 3 eq_refl) as [Hy _].
  split.
  - intros H. apply Hy in H. destruct H as (_ & _ & Hp). apply Hp. reflexivity.
  - apply Hy. split; [simpl; tauto|]. split; discriminate.
Defined.

(** ** C3 *)

(** C3 (the operations). The pool after [update_state_with_answer], whatever
    the answer code, and after [eliminate_movie], is a sub-multiset of the
    pool before: no row is added, the size does not grow. *)
Lemma pool_operations_shrink (st : EngineState) (q : Question) (ans : Answer) (ms mid : Z) :
  (length (candidates (update_state_with_answer st q ans ms)) <= length (candidates st))%nat
  /\ (forall m, In m (candidates (update_state_with_answer st q ans ms)) ->
               In m (candidates st))
  /\ (length (candidates (eliminate_movie st mid)) <= length (candidates st))%nat
  /\ (forall m, In m (candidates (eliminate_movie st mid)) -> In m (candidates st)).
Proof.
  pose proof (update_state_with_answer_submseteq st q ans ms) as Hu.
  pose proof (eliminate_movie_submseteq st mid) as He.
  repeat split.
  - now apply submseteq_length.
  - intros m. now apply submseteq_In.
  - now apply submseteq_length.
  - intros m. now apply submseteq_In.
Qed.

(** ** C5 *)



(** ** C6 *)

(** C6 (the defect). For a row whose identifier has no enriched record, and
    whose title does not name the franchise, [pred_is_harry_potter] answers
    [False], where [pred_franchise_name] on the same row answers [None]. *)
Lemma harry_potter_missing_data :
  get_details no_details 42 = empty_details
  /\ pred_is_harry_potter no_details orphan = Some false
  /\ pred_franchise_name no_details "Harry Potter" orphan = None.
Proof. repeat split; vm_compute; reflexivity. Qed.

(** Whatever the row, [pred_is_harry_potter] answers [False] when there is no
    enriched record and the title does not match. *)
Lemma harry_potter_no_record (conn : gmap Z details) (m : movie) (mid : Z) :
  movie_id m = Some mid -> conn !! mid = None ->
  contains "harry potter" (lower (py_str (mv_title m))) = false ->
  pred_is_harry_potter conn m = Some false.
Proof.
  intros Hid Hrow Ht. unfold pred_is_harry_potter, get_details.
  rewrite Ht, Hid, Hrow. reflexivity.
Qed.

(** [pred_franchise_name] is never [False] without a collection and without
    keywords. *)
Lemma franchise_name_no_data (conn : gmap Z details) (franchise : string) (m : movie) :
  (forall mid, movie_id m = Some mid ->
     belongs_to_collection (get_details conn mid) = None
     /\ keywords (get_details conn mid) = []) ->
  pred_franchise_name conn franchise m <> Some false.
Proof.
  intros H. unfold pred_franchise_name. destruct (movie_id m) as [mid|]; [|discriminate].
  destruct (H mid eq_refl) as [Hc Hk]. rewrite Hc, Hk. simpl.
  destruct (contains _ _); discriminate.
Qed.

(** ** Snapshots and logs *)

Lemma snapshot_state_id st : snapshot_state st = st.
Proof. now destruct st. Qed.

Lemma undone_app l1 l2 : undone (l1 ++ l2) = (undone l1 || undone l2)%bool.
Proof. apply existsb_app. Qed.

(** ** Invariants of the turn loop *)

Section Preserved.
Variables (args : Args) (P : EngineState -> Prop).
Hypothesis HP : preserved args P.

Lemma targeted_loop_inv tqs : forall sess inp s' inp' log,
  session_inv P sess ->
  targeted_loop args tqs sess inp = (Some (s', inp'), log) ->
  session_inv P s'.
Proof.
  induction tqs as [|tq rest IH]; intros sess inp s' inp' log Hinv Hrun; simpl in Hrun.
  - now inversion Hrun; subst.
  - destruct (consecutive_guesses (state sess) <? max_consecutive_guesses args).
    { now inversion Hrun; subst. }
    destruct (read_answer inp) as [[ans inp1]|]; [|discriminate].
    destruct Hinv as [Hs Hh].
    destruct (String.eqb ans "u").
    + destruct (history sess) as [|h hs] eqn:Hhist.
      * destruct (targeted_loop args rest sess inp1) as [r l] eqn:Hr. simpl in Hrun.
        inversion Hrun; subst. eapply IH; [|exact Hr]. split; [exact Hs|now rewrite Hhist].
      * destruct (targeted_loop args rest _ inp1) as [r l] eqn:Hr. simpl in Hrun.
        inversion Hrun; subst. eapply IH; [|exact Hr].
        inversion Hh; subst. now split.
    + destruct (targeted_loop args rest _ inp1) as [r l] eqn:Hr. simpl in Hrun.
      inversion Hrun; subst. eapply IH; [|exact Hr].
      split; simpl.
      * now apply (pres_targeted _ _ HP).
      * constructor; [now rewrite snapshot_state_id|exact Hh].
Qed.

Lemma targeted_block_inv w sess inp s' inp' log :
  session_inv P sess ->
  targeted_block args w sess inp = (Next s' inp', log) ->
  session_inv P s'.
Proof.
  intros Hinv. unfold targeted_block.
  destruct (max_consecutive_guesses args <=? _).
  - destruct (targeted_loop _ _ _ _) as [[[s1 i1]|] l] eqn:Hr; intros H; inversion H; subst.
    eapply targeted_loop_inv; eauto.
  - intros H; inversion H; now subst.
Qed.

Lemma guess_block_inv sess inp :
  session_inv P sess ->
  match fst (guess_block args sess inp) with
  | Next s' _ => s' = sess
  | Stop (Continue s' _) => session_inv P s'
  | _ => True
  end.
Proof.
  intros [Hs Hh]. unfold guess_block.
  destruct (should_enter_guess_mode (state sess) && (guess_cooldown (state sess) =? 0))%bool eqn:Hg;
    [|reflexivity].
  apply andb_true_iff in Hg as [_ Hc]. apply Z.eqb_eq in Hc.
  destruct (candidates (state sess)) as [|top r]; [exact I|].
  destruct (ask_yes_no inp) as [[[|] i]|]; simpl; try exact I.
  split; simpl; [now apply (pres_reject _ _ HP)|exact Hh].
Qed.

Lemma manual_block_inv sess inp s' inp' :
  session_inv P sess ->
  fst (manual_block sess inp) = Continue s' inp' ->
  session_inv P s'.
Proof.
  intros [Hs Hh]. unfold manual_block.
  repeat case_match; simpl; intros Hrun; try discriminate; inversion Hrun; subst;
    try (split; [assumption|assumption]);
    (split; simpl; [|exact Hh]);
    first [now apply (pres_eliminate _ _ HP)|now apply (pres_sort _ _ HP)].
Qed.

Lemma question_block_inv w sess inp s' inp' :
  session_inv P sess ->
  fst (question_block args w sess inp) = Continue s' inp' ->
  session_inv P s'.
Proof.
  intros Hinv. pose proof Hinv as [Hs Hh]. unfold question_block.
  destruct (choose_best_question _ _ _ _ _ _ _) as [q|]; [|now apply manual_block_inv].
  destruct (read_answer inp) as [[ans i]|]; [|discriminate].
  destruct (String.eqb ans "u").
  { destruct (history sess) as [|h hs] eqn:Hhist; simpl; intros H; inversion H; subst.
    - exact Hinv.
    - inversion Hh; subst. now split. }
  assert (Hhist : Forall P (snapshot_state (state sess) :: history sess)).
  { constructor; [now rewrite snapshot_state_id|exact Hh]. }
  pose proof (pres_answer _ _ HP q ans _ Hs) as Ha.
  destruct (candidates (answer_question args q ans (state sess))) as [|top r]; [discriminate|].
  destruct (movie_id top) as [mid|].
  2:{ simpl. intros H; inversion H; subst. now split. }
  pose proof (pres_streak _ _ HP mid _ Ha) as Hst.
  destruct ((9 <=? _) && (_ =? 0))%bool eqn:Hg.
  - apply andb_true_iff in Hg as [_ Hc]. apply Z.eqb_eq in Hc.
    destruct (ask_yes_no i) as [[[|] i']|]; simpl; try discriminate.
    intros H; inversion H; subst. split; simpl; [|exact Hhist].
    now apply (pres_reject _ _ HP).
  - simpl. intros H; inversion H; subst. now split.
Qed.

Lemma iteration_inv w sess inp s' inp' :
  session_inv P sess ->
  fst (iteration args w sess inp) = Continue s' inp' ->
  session_inv P s'.
Proof.
  intros Hinv. unfold iteration.
  destruct (candidates (state sess)) as [|c0 [|c1 r]]; try discriminate.
  destruct (targeted_block args w sess inp) as [[s1 i1|o] l1] eqn:Ht.
  2:{ simpl. unfold targeted_block in Ht. destruct (_ <=? _); [|discriminate].
      destruct (targeted_loop _ _ _ _) as [[[? ?]|] ?]; inversion Ht; subst; discriminate. }
  apply targeted_block_inv in Ht; [|exact Hinv].
  pose proof (guess_block_inv s1 i1 Ht) as Hg.
  destruct (guess_block args s1 i1) as [[s2 i2|o] l2]; simpl in Hg.
  - subst s2. destruct (question_block args w s1 i2) as [o l3] eqn:Hq. simpl.
    intros H. apply (question_block_inv w s1 i2 s' inp' Ht). rewrite Hq. exact H.
  - simpl. intros H; subst o. exact Hg.
Qed.

Lemma reachable_inv w movies sess :
  P (state (initial_session movies)) ->
  reachable args w movies sess -> session_inv P sess.
Proof.
  intros H0 Hr. induction Hr as [|sess inp sess' inp' log Hr IH Hit].
  - split; [exact H0|constructor].
  - eapply iteration_inv; [exact IH|]. now rewrite Hit.
Qed.

End Preserved.

(** ** What a turn without undo never reverts *)

Section Monotone.
Variables (args : Args) (R : EngineState -> EngineState -> Prop).
Hypothesis HR : monotone args R.

Lemma targeted_loop_monotone tqs : forall sess inp r log,
  targeted_loop args tqs sess inp = (r, log) -> undone log = false ->
  match r with Some (s', _) => R (state sess) (state s') | None => True end.
Proof.
  induction tqs as [|tq rest IH]; intros sess inp r log Hrun Hu; simpl in Hrun.
  - inversion Hrun; subst. apply (mono_refl _ _ HR).
  - destruct (consecutive_guesses (state sess) <? max_consecutive_guesses args).
    { inversion Hrun; subst. apply (mono_refl _ _ HR). }
    destruct (read_answer inp) as [[ans inp1]|]; [|now inversion Hrun; subst].
    destruct (String.eqb ans "u").
    + destruct (history sess) as [|h hs].
      * inversion Hrun; subst. simpl in Hu.
        apply (IH sess inp1 _ _ (surjective_pairing _) Hu).
      * inversion Hrun; subst. discriminate Hu.
    + inversion Hrun; subst. simpl in Hu.
      specialize (IH _ inp1 _ _ (surjective_pairing _) Hu). simpl in IH.
      destruct (fst (targeted_loop _ _ _ _)) as [[s' i']|]; [|exact I].
      eapply (mono_trans _ _ HR); [apply (mono_targeted _ _ HR)|exact IH].
Qed.

Lemma targeted_block_monotone w sess inp s' inp' log :
  targeted_block args w sess inp = (Next s' inp', log) -> undone log = false ->
  R (state sess) (state s').
Proof.
  unfold targeted_block. destruct (max_consecutive_guesses args <=? _).
  - destruct (targeted_loop _ _ _ _) as [[[s1 i1]|] l] eqn:Hr; intros H Hu; inversion H; subst.
    apply (targeted_loop_monotone _ _ _ _ _ Hr Hu).
  - intros H _; inversion H; subst. apply (mono_refl _ _ HR).
Qed.

Lemma guess_block_monotone sess inp :
  match fst (guess_block args sess inp) with
  | Next s' _ => s' = sess
  | Stop (Continue s' _) => R (state sess) (state s')
  | _ => True
  end.
Proof.
  unfold guess_block.
  destruct (should_enter_guess_mode (state sess) && (guess_cooldown (state sess) =? 0))%bool;
    [|reflexivity].
  destruct (candidates (state sess)) as [|top r]; [exact I|].
  destruct (ask_yes_no inp) as [[[|] i]|]; simpl; try exact I.
  apply (mono_reject _ _ HR).
Qed.

Lemma manual_block_monotone sess inp s' inp' :
  fst (manual_block sess inp) = Continue s' inp' -> R (state sess) (state s').
Proof.
  unfold manual_block.
  repeat case_match; simpl; intros Hrun; try discriminate; inversion Hrun; subst; simpl;
    first [apply (mono_refl _ _ HR)|apply (mono_eliminate _ _ HR)|apply (mono_sort _ _ HR)].
Qed.

Lemma question_block_monotone w sess inp s' inp' log :
  question_block args w sess inp = (Continue s' inp', log) -> undone log = false ->
  R (state sess) (state s').
Proof.
  unfold question_block.
  destruct (choose_best_question _ _ _ _ _ _ _) as [q|].
  2:{ intros H _. apply (manual_block_monotone sess inp s' inp'). now rewrite H. }
  destruct (read_answer inp) as [[ans i]|]; [|discriminate].
  destruct (String.eqb ans "u").
  { destruct (history sess); intros H Hu; inversion H; subst;
      [apply (mono_refl _ _ HR)|discriminate Hu]. }
  pose proof (mono_answer _ _ HR q ans (state sess)) as Ha.
  destruct (candidates (answer_question args q ans (state sess))) as [|top r]; [discriminate|].
  destruct (movie_id top) as [mid|].
  2:{ intros H _; inversion H; subst. exact Ha. }
  pose proof (mono_streak _ _ HR mid (answer_question args q ans (state sess))) as Hst.
  destruct ((9 <=? _) && (_ =? 0))%bool.
  - destruct (ask_yes_no i) as [[[|] i']|]; try discriminate.
    intros H _; inversion H; subst. simpl.
    eapply (mono_trans _ _ HR); [exact Ha|].
    eapply (mono_trans _ _ HR); [exact Hst|apply (mono_reject _ _ HR)].
  - intros H _; inversion H; subst. simpl. eapply (mono_trans _ _ HR); eauto.
Qed.

Lemma targeted_block_stop w sess inp o log :
  targeted_block args w sess inp = (Stop o, log) -> o = EndOfInput.
Proof.
  unfold targeted_block. destruct (_ <=? _); [|discriminate].
  destruct (targeted_loop _ _ _ _) as [[[? ?]|] ?]; intros H; inversion H; now subst.
Qed.

Lemma iteration_monotone w sess inp s' inp' log :
  iteration args w sess inp = (Continue s' inp', log) -> undone log = false ->
  R (state sess) (state s').
Proof.
  unfold iteration.
  destruct (candidates (state sess)) as [|c0 [|c1 r]]; try discriminate.
  destruct (targeted_block args w sess inp) as [[s1 i1|o] l1] eqn:Ht.
  2:{ apply targeted_block_stop in Ht. subst o. discriminate. }
  pose proof (guess_block_monotone s1 i1) as Hg.
  destruct (guess_block args s1 i1) as [[s2 i2|o] l2]; simpl in Hg.
  - subst s2. destruct (question_block args w s1 i2) as [o l3] eqn:Hq.
    intros H Hu; inversion H; subst. rewrite !undone_app in Hu.
    apply orb_false_iff in Hu as [Hu1 Hu]. apply orb_false_iff in Hu as [Hu2 Hu3].
    eapply (mono_trans _ _ HR); [apply (targeted_block_monotone _ _ _ _ _ _ Ht Hu1)|].
    apply (question_block_monotone _ _ _ _ _ _ Hq Hu3).
  - intros H Hu; inversion H; subst. rewrite undone_app in Hu.
    apply orb_false_iff in Hu as [Hu1 Hu2].
    eapply (mono_trans _ _ HR); [apply (targeted_block_monotone _ _ _ _ _ _ Ht Hu1)|exact Hg].
Qed.

End Monotone.

(** ** What each operation leaves alone *)

Lemma update_state_with_answer_frame st q ans ms :
  let st' := update_state_with_answer st q ans ms in
  asked st' = asked st /\ question_count st' = question_count st
  /\ guess_cooldown st' = guess_cooldown st /\ top_streak_mid st' = top_streak_mid st
  /\ top_streak_len st' = top_streak_len st
  /\ consecutive_guesses st' = consecutive_guesses st
  /\ recent_question_types st' = recent_question_types st.
Proof.
  unfold update_state_with_answer, strike_removal, apply_answer.
  repeat case_match; simpl; repeat split; reflexivity.
Qed.

Lemma record_answer_frame q ans st :
  let st' := record_answer q ans st in
  candidates st' = candidates st /\ scores st' = scores st /\ strikes st' = strikes st
  /\ consecutive_guesses st' = 0 /\ asked st ⊆ asked st' /\ key q ∈ asked st'
  /\ top_streak_mid st' = top_streak_mid st /\ top_streak_len st' = top_streak_len st.
Proof.
  unfold record_answer, tick_cooldown.
  repeat case_match; simpl; repeat split; try reflexivity; set_solver.
Qed.

Lemma record_targeted_answer_frame q st :
  let st' := record_targeted_answer q st in
  candidates st' = candidates st /\ scores st' = scores st /\ strikes st' = strikes st
  /\ consecutive_guesses st' = 0 /\ asked st ⊆ asked st' /\ key q ∈ asked st'.
Proof.
  unfold record_targeted_answer, tick_cooldown.
  repeat case_match; simpl; repeat split; try reflexivity; set_solver.
Qed.

Lemma tick_cooldown_spec st :
  guess_cooldown (tick_cooldown st) =
  if (0 <? guess_cooldown st) then guess_cooldown st - 1 else guess_cooldown st.
Proof. unfold tick_cooldown. now destruct (0 <? guess_cooldown st). Qed.

Lemma update_streak_frame mid st :
  let st' := update_streak mid st in
  candidates st' = candidates st /\ asked st' = asked st /\ scores st' = scores st
  /\ strikes st' = strikes st /\ guess_cooldown st' = guess_cooldown st
  /\ consecutive_guesses st' = consecutive_guesses st.
Proof. unfold update_streak. case_match; simpl; repeat split; reflexivity. Qed.

Lemma reject_guess_frame args mid st :
  let st' := reject_guess args mid st in
  asked st' = asked st /\ guess_cooldown st' = args_guess_cooldown args
  /\ consecutive_guesses st' = consecutive_guesses st + 1
  /\ top_streak_len st' = 0
  /\ candidates st' ⊆+ candidates st /\ strikes st' ⊆ strikes st.
Proof.
  unfold reject_guess. destruct mid as [i|]; simpl; repeat split; try reflexivity.
  - etransitivity; [apply Permutation_submseteq, sorted_candidates_Permutation|].
    apply filter_submseteq.
  - apply delete_subseteq.
  - apply Permutation_submseteq, sorted_candidates_Permutation.
Qed.

(** ** The pool shrinks, the asked set grows *)

Lemma answer_question_submseteq args q ans st :
  candidates (answer_question args q ans st) ⊆+ candidates st.
Proof.
  unfold answer_question.
  etransitivity; [apply update_state_with_answer_submseteq|].
  now rewrite (proj1 (record_answer_frame q ans st)).
Qed.

Lemma answer_targeted_question_submseteq args q ans st :
  candidates (answer_targeted_question args q ans st) ⊆+ candidates st.
Proof.
  unfold answer_targeted_question.
  etransitivity; [apply update_state_with_answer_submseteq|].
  now rewrite (proj1 (record_targeted_answer_frame q st)).
Qed.

Lemma pool_monotone args :
  monotone args (fun a b => candidates b ⊆+ candidates a).
Proof.
  split.
  - reflexivity.
  - intros a b c H1 H2. now transitivity (candidates b).
  - intros. apply answer_question_submseteq.
  - intros. apply answer_targeted_question_submseteq.
  - intros. now rewrite (proj1 (update_streak_frame mid st)).
  - intros. apply reject_guess_frame.
  - intros. simpl. etransitivity; [apply Permutation_submseteq, sorted_candidates_Permutation|].
    apply filter_submseteq.
  - intros. apply Permutation_submseteq, sorted_candidates_Permutation.
Qed.

Lemma asked_answer_question args q ans st :
  asked st ⊆ asked (answer_question args q ans st)
  /\ key q ∈ asked (answer_question args q ans st).
Proof.
  unfold answer_question.
  rewrite (proj1 (update_state_with_answer_frame _ q ans (max_strikes args))).
  split; apply record_answer_frame.
Qed.

Lemma asked_answer_targeted_question args q ans st :
  asked st ⊆ asked (answer_targeted_question args q ans st).
Proof.
  unfold answer_targeted_question.
  rewrite (proj1 (update_state_with_answer_frame _ q ans (max_strikes args))).
  apply record_targeted_answer_frame.
Qed.

Lemma asked_monotone args : monotone args (fun a b => asked a ⊆ asked b).
Proof.
  split.
  - reflexivity.
  - intros a b c H1 H2. now transitivity (asked b).
  - intros. apply asked_answer_question.
  - intros. apply asked_answer_targeted_question.
  - intros. now rewrite (proj1 (proj2 (update_streak_frame mid st))).
  - intros. now rewrite (proj1 (reject_guess_frame args mid st)).
  - reflexivity.
  - reflexivity.
Qed.

(** ** C3 *)

(** C3. Whatever the answer code, the pool after [update_state_with_answer]
    (removal by strikes included) is no larger than before and holds no new
    row; the same for [eliminate_movie] and for a refused guess; and a whole
    turn of [main] in which no undo takes place leaves a pool included, as a
    multiset, in the pool it started from. *)
Theorem pool_never_grows (args : Args) (w : World) (sess : Session) (inp : list string)
    (q : Question) (ans : Answer) (ms : Z) (mid : Z) (guessed : option Z) :
  let st := state sess in
  ((length (candidates (update_state_with_answer st q ans ms)) <= length (candidates st))%nat
   /\ forall m, In m (candidates (update_state_with_answer st q ans ms)) -> In m (candidates st))
  /\ ((length (candidates (eliminate_movie st mid)) <= length (candidates st))%nat
      /\ forall m, In m (candidates (eliminate_movie st mid)) -> In m (candidates st))
  /\ ((length (candidates (reject_guess args guessed st)) <= length (candidates st))%nat
      /\ forall m, In m (candidates (reject_guess args guessed st)) -> In m (candidates st))
  /\ match iteration args w sess inp with
     | (Continue sess' _, log) =>
         undone log = false ->
         (length (candidates (state sess')) <= length (candidates st))%nat
         /\ forall m, In m (candidates (state sess')) -> In m (candidates st)
     | _ => True
     end.
Proof.
  intros st.
  assert (Hsub : forall l k : list movie, l ⊆+ k ->
            (length l <= length k)%nat /\ forall m, In m l -> In m k).
  { intros l k H. split; [now apply submseteq_length|intros m; now apply submseteq_In]. }
  split; [apply Hsub, update_state_with_answer_submseteq|].
  split; [apply Hsub, eliminate_movie_submseteq|].
  split; [apply Hsub, reject_guess_frame|].
  destruct (iteration args w sess inp) as [[sess' inp'| | |] log] eqn:Hit; try exact I.
  intros Hu. apply Hsub.
  apply (iteration_monotone args _ (pool_monotone args) w sess inp sess' inp' log Hit Hu).
Qed.

(** ** C10 *)

Lemma no_strikes_preserved args : preserved args (fun st => strikes st = ∅).
Proof.
  assert (Hupd : forall st q ans, strikes st = ∅ ->
            strikes (update_state_with_answer st q ans (max_strikes args)) = ∅).
  { intros st q ans H. apply subseteq_empty_map. rewrite <- H.
    apply update_state_with_answer_strikes. }
  split.
  - intros q ans st H. apply Hupd. now rewrite (proj1 (proj2 (proj2 (record_answer_frame q ans st)))).
  - intros q ans st H. apply Hupd.
    now rewrite (proj1 (proj2 (proj2 (record_targeted_answer_frame q st)))).
  - intros mid st H. now rewrite (proj1 (proj2 (proj2 (proj2 (update_streak_frame mid st))))).
  - intros mid st H _. apply subseteq_empty_map. rewrite <- H. apply reject_guess_frame.
  - intros mid st H. simpl. rewrite H. apply delete_empty.
  - intros st H. exact H.
Qed.

(** C10. In every session [main] can reach, whatever the answers, the
    refused guesses and the undos, the strike table of the state and of every
    snapshot is empty: every strike count is zero, and the removal by strikes
    of [update_state_with_answer] takes no row out of the pool after any
    answer. *)
Theorem strikes_stay_zero (args : Args) (w : World) (movies : list movie) (sess : Session) :
  reachable args w movies sess ->
  (forall mid, strikes_get (strikes (state sess)) mid = 0)
  /\ Forall (fun snap => forall mid, strikes_get (strikes snap) mid = 0) (history sess)
  /\ (forall q ans,
        to_remove (strikes (apply_answer (state sess) q ans)) (max_strikes args)
          (candidates (apply_answer (state sess) q ans)) = []
        /\ strike_removal (apply_answer (state sess) q ans) (max_strikes args)
           = apply_answer (state sess) q ans).
Proof.
  intros Hr.
  destruct (reachable_inv args _ (no_strikes_preserved args) w movies sess eq_refl Hr)
    as [Hs Hh].
  split; [|split].
  - intros mid. unfold strikes_get. now rewrite Hs, lookup_empty.
  - eapply Forall_impl; [exact Hh|]. intros snap H mid. simpl in H.
    unfold strikes_get. now rewrite H, lookup_empty.
  - intros q ans.
    assert (He : strikes (apply_answer (state sess) q ans) = ∅).
    { apply subseteq_empty_map. rewrite <- Hs. apply apply_answer_strikes. }
    assert (Hms : 1 <= max_strikes args) by (unfold max_strikes; lia).
    split.
    + rewrite He. now apply to_remove_no_strikes.
    + now apply strike_removal_no_strikes.
Qed.

Lemma strikes_stay_zero_witness :
  reachable default_args language_world [inception; amelie]
    (fst (run 1 default_args language_world (initial_session [inception; amelie]) ["n"]))
  /\ strikes_get (strikes (state (fst (run 1 default_args language_world
                                        (initial_session [inception; amelie]) ["n"]))))
       194 = 0.
Proof.
  assert (Hr : reachable default_args language_world [inception; amelie]
                 (fst (run 1 default_args language_world
                         (initial_session [inception; amelie]) ["n"]))).
  { eapply (reachable_step _ _ _ (initial_session [inception; amelie]) ["n"]).
    - apply reachable_init.
    - vm_compute. reflexivity. }
  split; [exact Hr|].
  apply (strikes_stay_zero default_args language_world [inception; amelie] _ Hr).
Defined.

(** ** Well-formed pools *)



Lemma initial_session_candidates movies :
  Permutation (candidates (state (initial_session movies))) movies.
Proof. apply sorted_candidates_Permutation. Qed.

Lemma record_answer_cooldown q ans st :
  guess_cooldown (record_answer q ans st) =
  if (0 <? guess_cooldown st) then guess_cooldown st - 1 else guess_cooldown st.
Proof.
  unfold record_answer. rewrite tick_cooldown_spec.
  destruct (String.eqb ans "y" && startswith (key q) "language_")%bool; reflexivity.
Qed.


Lemma answer_question_consecutive args q ans st :
  consecutive_guesses (answer_question args q ans st) = 0.
Proof.
  unfold answer_question.
  destruct (update_state_with_answer_frame (record_answer q ans st) q ans (max_strikes args))
    as (_ & _ & _ & _ & _ & -> & _).
  apply record_answer_frame.
Qed.

Lemma answer_targeted_question_consecutive args q ans st :
  consecutive_guesses (answer_targeted_question args q ans st) = 0.
Proof.
  unfold answer_targeted_question.
  destruct (update_state_with_answer_frame (record_targeted_answer q st) q ans (max_strikes args))
    as (_ & _ & _ & _ & _ & -> & _).
  apply record_targeted_answer_frame.
Qed.

Lemma guess_count_preserved args :
  args_guess_cooldown args <> 0 -> preserved args (guess_count_inv args).
Proof.
  intros Hcd. unfold guess_count_inv. split.
  - intros q ans st _. left. apply answer_question_consecutive.
  - intros q ans st _. left. apply answer_targeted_question_consecutive.
  - intros mid st H. destruct (update_streak_frame mid st) as (_ & _ & _ & _ & -> & ->).
    exact H.
  - intros mid st H Hc. destruct (reject_guess_frame args mid st) as (_ & -> & -> & _).
    right. destruct H as [->|[_ H]]; [split; reflexivity|congruence].
  - intros mid st H. exact H.
  - intros st H. exact H.
Qed.

(** ** Turns without a guess *)

Lemma guesses_offered_app l1 l2 :
  guesses_offered (l1 ++ l2) = guesses_offered l1 ++ guesses_offered l2.
Proof. apply omap_app. Qed.

Lemma targeted_block_skipped args w sess inp :
  consecutive_guesses (state sess) < max_consecutive_guesses args ->
  targeted_block args w sess inp = (Next sess inp, []).
Proof.
  intros H. unfold targeted_block.
  destruct (Z.leb_spec (max_consecutive_guesses args) (consecutive_guesses (state sess)));
    [lia|reflexivity].
Qed.



(** ** C9 *)




(** ** The elimination pass on a row *)

Lemma keep_ids_lookup {V} (ids : gset Z) (d : gmap Z V) (mid : Z) :
  mid ∈ ids -> keep_ids ids d !! mid = d !! mid.
Proof.
  intros Hin. unfold keep_ids. destruct (d !! mid) as [x|] eqn:Hd.
  - apply map_lookup_filter_Some. split; [exact Hd|exact Hin].
  - apply map_lookup_filter_None. left. exact Hd.
Qed.

Lemma pop_all_lookup {V} (l : list Z) (d : gmap Z V) (mid : Z) :
  ~ In mid l -> pop_all l d !! mid = d !! mid.
Proof.
  revert d. induction l as [|i r IH]; intros d Hnot; simpl.
  - reflexivity.
  - rewrite IH by (intros H; apply Hnot; now right).
    apply lookup_delete_ne. intros ->. apply Hnot. now left.
Qed.

Lemma remaining_ids_spec (cands : list movie) (mid : Z) :
  mid ∈ remaining_ids cands <-> exists m, In m cands /\ movie_id m = Some mid.
Proof.
  unfold remaining_ids. rewrite elem_of_list_to_set, list_elem_of_omap.
  split; intros (m & Hm & Hid); exists m; (split; [|exact Hid]);
    now apply list_elem_of_In.
Qed.

Lemma id_in_spec (i : Z) (l : list Z) : id_in (Some i) l = true <-> In i l.
Proof.
  simpl. rewrite existsb_exists. split.
  - intros (x & Hx & He). apply Z.eqb_eq in He. now subst.
  - intros H. exists i. split; [exact H|apply Z.eqb_refl].
Qed.

Lemma to_remove_spec (st : gmap Z Z) (ms : Z) (cands : list movie) (i : Z) :
  In i (to_remove st ms cands) <->
  exists m, In m cands /\ movie_id m = Some i /\ ms <= strikes_get st i.
Proof.
  unfold to_remove. rewrite <- list_elem_of_In, list_elem_of_omap. split.
  - intros (m & Hm & Hf). exists m. apply list_elem_of_In in Hm.
    destruct (movie_id m) as [mid|]; [|discriminate].
    destruct (Z.leb_spec ms (strikes_get st mid)); [|discriminate].
    injection Hf as ->. auto.
  - intros (m & Hm & Hid & Hle). exists m. split; [now apply list_elem_of_In|].
    rewrite Hid. destruct (Z.leb_spec ms (strikes_get st i)); [reflexivity|lia].
Qed.

Section SoftPass.

Variables (rule : option bool -> verdict) (st : EngineState) (q : Question) (ms : Z).
Variables (m : movie) (mid : Z).
Hypothesis Hin : In m (candidates st).
Hypothesis Hid : movie_id m = Some mid.

Let s1 := elimination_pass rule q st.
Let s2 := sort_candidates (strike_removal s1 ms).

Lemma pass_candidates :
  In m (candidates s1) <-> rule (predicate q m) <> Nothing.
Proof.
  unfold s1, elimination_pass. simpl. rewrite answer_loop_fst, filter_In.
  unfold kept. rewrite Hid. destruct (rule (predicate q m)); intuition congruence.
Qed.

Lemma pass_strikes :
  In m (candidates s1) -> strikes s1 !! mid = strikes st !! mid.
Proof.
  intros H. unfold s1, elimination_pass. simpl. apply keep_ids_lookup.
  apply remaining_ids_spec. exists m. split; [|exact Hid].
  unfold s1, elimination_pass in H. exact H.
Qed.

Lemma pass_survives :
  In m (candidates s2) <->
  rule (predicate q m) <> Nothing /\ strikes_get (strikes st) mid < ms.
Proof.
  unfold s2. rewrite (Permutation_In_iff _ _ m (sort_candidates_Permutation _)).
  rewrite strike_removal_candidates, filter_In, <- pass_candidates.
  rewrite Hid, negb_true_iff, <- not_true_iff_false, id_in_spec, to_remove_spec.
  split.
  - intros [H1 Hnot]. split; [exact H1|].
    destruct (Z.lt_ge_cases (strikes_get (strikes st) mid) ms) as [|Hge]; [assumption|].
    exfalso. apply Hnot. exists m. repeat split; try assumption.
    unfold strikes_get. rewrite (pass_strikes H1). exact Hge.
  - intros [H1 Hlt]. split; [exact H1|].
    intros (m' & _ & _ & Hge). unfold strikes_get in Hge. rewrite (pass_strikes H1) in Hge.
    unfold strikes_get in Hlt. lia.
Qed.

Lemma pass_strikes_kept :
  In m (candidates s2) -> strikes_get (strikes s2) mid = strikes_get (strikes st) mid.
Proof.
  intros H. pose proof H as Hs. apply pass_survives in Hs as [H1 Hlt].
  apply pass_candidates in H1.
  unfold strikes_get at 1. unfold s2. simpl.
  assert (Hl : strikes (strike_removal s1 ms) !! mid = strikes s1 !! mid).
  { unfold strike_removal. destruct (to_remove (strikes s1) ms (candidates s1)) eqn:Htr.
    - reflexivity.
    - cbn [strikes scores set_strikes set_scores set_candidates].
      apply pop_all_lookup. rewrite <- Htr, to_remove_spec.
      intros (m' & _ & _ & Hge). unfold strikes_get in Hge. rewrite (pass_strikes H1) in Hge.
      unfold strikes_get in Hlt. lia. }
  rewrite Hl, (pass_strikes H1). reflexivity.
Qed.

Hypothesis Hnd : NoDup (map movie_id (candidates st)).

Lemma pass_scores :
  In m (candidates s2) ->
  scores s2 !! mid = bump (scores st) mid (rule (predicate q m)) !! mid.
Proof.
  intros H. pose proof H as Hs. apply pass_survives in Hs as [H1 Hlt].
  apply pass_candidates in H1.
  unfold s2. simpl.
  assert (Hl : scores (strike_removal s1 ms) !! mid = scores s1 !! mid).
  { unfold strike_removal. destruct (to_remove (strikes s1) ms (candidates s1)) eqn:Htr.
    - reflexivity.
    - cbn [strikes scores set_strikes set_scores set_candidates].
      apply pop_all_lookup. rewrite <- Htr, to_remove_spec.
      intros (m' & _ & _ & Hge). unfold strikes_get in Hge. rewrite (pass_strikes H1) in Hge.
      unfold strikes_get in Hlt. lia. }
  rewrite Hl. unfold s1, elimination_pass. simpl.
  rewrite keep_ids_lookup.
  - now apply answer_loop_snd_present.
  - apply remaining_ids_spec. exists m. split; [exact H1|exact Hid].
Qed.

End SoftPass.

Lemma soft_update st q ans ms :
  is_hard_elimination (key q) = false ->
  update_state_with_answer st q ans ms
  = sort_candidates (strike_removal (apply_answer st q ans) ms).
Proof. intros H. unfold update_state_with_answer. now rewrite H. Qed.

(** ** C2 *)

(** C2 (as stated, refuted). "popular" is a soft question.  On "yes", the
    row on which the predicate is [True] gains 5.0 (not 1.5), and the row on
    which it is [False], with no strike and a threshold of 3, is removed from
    the pool; no strike is recorded. *)
Lemma soft_yes_counterexample :
  is_hard_elimination (key popular) = false
  /\ predicate popular inception = Some true
  /\ predicate popular amelie = Some false
  /\ strikes_get (strikes (init_state [inception; amelie])) 194 = 0
  /\ candidates (update_state_with_answer (init_state [inception; amelie]) popular "y" 3)
     = [inception]
  /\ scores_get (scores (update_state_with_answer (init_state [inception; amelie])
                           popular "y" 3)) 27205 = 5.0%float
  /\ strikes (update_state_with_answer (init_state [inception; amelie]) popular "y" 3) = ∅.
Proof. repeat split; vm_compute; reflexivity. Qed.

(** C2 (amended). For a soft question and a pool with distinct identifiers,
    "yes" and "no" remove rows as for a hard one and record no strike.  A row
    of the pool with an identifier stays after "yes" exactly when the
    predicate is not [False] on it and its strike count is below the maximum;
    it then gains 5.0 when the predicate is [True] and loses 1.0 when it is
    [None], and its strike count is what it was.  After "no" it stays exactly
    when the predicate is not [True] and its strike count is below the
    maximum; it then gains 3.0 when the predicate is [False] and 0.5 when it
    is [None]. *)
Theorem soft_answer (st : EngineState) (q : Question) (ms : Z) (m : movie) (mid : Z) :
  is_hard_elimination (key q) = false ->
  NoDup (map movie_id (candidates st)) ->
  In m (candidates st) -> movie_id m = Some mid ->
  let yes := update_state_with_answer st q "y" ms in
  let no := update_state_with_answer st q "n" ms in
  ((In m (candidates yes) <->
      predicate q m <> Some false /\ strikes_get (strikes st) mid < ms)
   /\ (In m (candidates yes) ->
         scores yes !! mid
         = Some (match predicate q m with
                 | None => scores_get (scores st) mid - 1.0
                 | _ => scores_get (scores st) mid + 5.0
                 end)%float
         /\ strikes_get (strikes yes) mid = strikes_get (strikes st) mid))
  /\
  ((In m (candidates no) <->
      predicate q m <> Some true /\ strikes_get (strikes st) mid < ms)
   /\ (In m (candidates no) ->
         scores no !! mid
         = Some (match predicate q m with
                 | None => scores_get (scores st) mid + 0.5
                 | _ => scores_get (scores st) mid + 3.0
                 end)%float
         /\ strikes_get (strikes no) mid = strikes_get (strikes st) mid)).
Proof.
  intros Hsoft Hnd Hin Hid yes no. unfold yes, no. rewrite !soft_update by exact Hsoft.
  change (apply_answer st q "y") with (elimination_pass rule_y q st).
  change (apply_answer st q "n") with (elimination_pass rule_n q st).
  split; split.
  - rewrite (pass_survives rule_y st q ms m mid Hin Hid).
    unfold rule_y. destruct (predicate q m) as [[|]|]; intuition congruence.
  - intros H. split; [|now apply (pass_strikes_kept rule_y st q ms m mid Hin Hid)].
    rewrite (pass_scores rule_y st q ms m mid Hin Hid Hnd H).
    apply (pass_survives rule_y st q ms m mid Hin Hid) in H as [Hr _].
    unfold rule_y in *. destruct (predicate q m) as [[|]|]; simpl;
      rewrite ?lookup_insert_eq; try reflexivity; congruence.
  - rewrite (pass_survives rule_n st q ms m mid Hin Hid).
    unfold rule_n. destruct (predicate q m) as [[|]|]; intuition congruence.
  - intros H. split; [|now apply (pass_strikes_kept rule_n st q ms m mid Hin Hid)].
    rewrite (pass_scores rule_n st q ms m mid Hin Hid Hnd H).
    apply (pass_survives rule_n st q ms m mid Hin Hid) in H as [Hr _].
    unfold rule_n in *. destruct (predicate q m) as [[|]|]; simpl;
      rewrite ?lookup_insert_eq; try reflexivity; congruence.
Qed.

Lemma soft_answer_witness :
  is_hard_elimination (key popular) = false
  /\ NoDup (map movie_id (candidates (init_state [inception; amelie])))
  /\ In inception (candidates (update_state_with_answer
                                 (init_state [inception; amelie]) popular "y" 3))
  /\ ~ In amelie (candidates (update_state_with_answer
                                (init_state [inception; amelie]) popular "y" 3)).
Proof.
  assert (Hnd : NoDup (map movie_id (candidates (init_state [inception; amelie])))).
  { simpl. repeat (apply NoDup_cons; split); try apply NoDup_nil_2;
      rewrite list_elem_of_In; simpl; intuition discriminate. }
  split; [reflexivity|]. split; [exact Hnd|]. split.
  - apply (soft_answer (init_state [inception; amelie]) popular 3 inception 27205
             eq_refl Hnd ltac:(simpl; tauto) eq_refl).
    split; [discriminate|reflexivity].
  - intros H.
    pose proof (soft_answer (init_state [inception; amelie]) popular 3 amelie 194
                  eq_refl Hnd ltac:(simpl; tauto) eq_refl) as [[Hy _] _].
    apply Hy in H. destruct H as [H _]. apply H. reflexivity.
Defined.

(** ** The selector never returns an asked key *)

Lemma firstn_incl {A} (n : nat) (l : list A) x : In x (firstn n l) -> In x l.
Proof.
  revert l. induction n as [|n IH]; intros [|y r]; simpl; try tauto.
  intros [H|H]; [now left|right; now apply IH].
Qed.

Lemma sort_by_In {A} (lt : A -> A -> bool) (l : list A) x : In x (sort_by lt l) <-> In x l.
Proof. apply Permutation_In_iff, sort_by_Permutation. Qed.

Lemma is_valid_question_not_asked asked q :
  is_valid_question asked q = true -> key q ∉ asked.
Proof.
  unfold is_valid_question. destruct (bool_decide (key q ∈ asked)) eqn:Hd; [discriminate|].
  intros _. now apply bool_decide_eq_false in Hd.
Qed.

Lemma scored_questions_In log2 cands state valid q s :
  In (q, s) (scored_questions log2 cands state valid) -> In q valid.
Proof.
  unfold scored_questions. rewrite <- !list_elem_of_In, list_elem_of_omap.
  intros (q' & Hq' & Hf). destruct (PrimFloat.ltb 0 (score log2 q' cands)); [|discriminate].
  injection Hf as -> _. exact Hq'.
Qed.

Lemma choose_best_question_valid log2 rnd cands questions asked first state q :
  choose_best_question log2 rnd cands questions asked first state = Some q ->
  In q questions /\ key q ∉ asked.
Proof.
  unfold choose_best_question.
  set (valid := List.filter (is_valid_question asked) questions).
  destruct valid as [|v0 vr] eqn:Hvalid; [discriminate|]. rewrite <- Hvalid. clear Hvalid v0 vr.
  set (valid' := if (150 <? length valid)%nat then firstn 150 valid else valid).
  assert (Hv : forall x, In x valid' -> In x questions /\ key x ∉ asked).
  { intros x Hx.
    assert (Hx' : In x valid).
    { unfold valid' in Hx. destruct (150 <? length valid)%nat; [|exact Hx].
      eapply firstn_incl; eauto. }
    unfold valid in Hx'. apply filter_In in Hx' as [H1 H2].
    split; [exact H1|now apply is_valid_question_not_asked]. }
  destruct (scored_questions log2 cands state valid') as [|s0 sr] eqn:Hs; [discriminate|].
  rewrite <- Hs. clear s0 sr Hs.
  set (sorted := sort_by _ (scored_questions log2 cands state valid')).
  assert (Hsorted : forall x, In x sorted -> In (fst x) questions /\ key (fst x) ∉ asked).
  { intros [x s] Hx. unfold sorted in Hx. apply sort_by_In in Hx.
    apply scored_questions_In in Hx. now apply Hv. }
  destruct (first && (5 <=? length sorted)%nat)%bool.
  - destruct (nth_error (firstn 5 sorted) (rnd mod 5)) as [x|] eqn:Hn; [|discriminate].
    simpl. intros [= <-]. apply Hsorted. apply nth_error_In in Hn.
    eapply firstn_incl; eauto.
  - destruct sorted as [|x r]; [discriminate|]. simpl. intros [= <-].
    apply Hsorted. now left.
Qed.

Lemma get_discriminating_questions_not_asked log2 gathered cands asked count :
  Forall (fun q => key q ∉ asked)
    (get_discriminating_questions log2 gathered cands asked count).
Proof.
  unfold get_discriminating_questions. rewrite Forall_forall. intros q Hq.
  apply list_elem_of_In, in_map_iff in Hq as ([q' s] & <- & Hq). simpl.
  apply firstn_incl, sort_by_In, filter_In in Hq as [Hq _].
  apply in_map_iff in Hq as (q'' & [= <- _] & Hq).
  apply filter_In in Hq as [_ Hq]. apply negb_true_iff in Hq.
  now apply bool_decide_eq_false in Hq.
Qed.

(** ** The questions of a turn *)

Lemma questions_asked_app l1 l2 :
  questions_asked (l1 ++ l2) = questions_asked l1 ++ questions_asked l2.
Proof. apply omap_app. Qed.

Lemma retracted_app l1 l2 : retracted (l1 ++ l2) = (retracted l1 || retracted l2)%bool.
Proof. apply existsb_app. Qed.

Lemma retracted_undone log : retracted log = false -> undone log = false.
Proof.
  induction log as [|e r IH]; simpl; [reflexivity|].
  intros H. apply orb_false_iff in H as [He Hr]. rewrite (IH Hr).
  now destruct e.
Qed.

Lemma targeted_loop_questions args tqs : forall sess inp,
  incl (questions_asked (snd (targeted_loop args tqs sess inp))) (map key tqs).
Proof.
  induction tqs as [|tq rest IH]; intros sess inp; simpl.
  - apply incl_refl.
  - destruct (consecutive_guesses (state sess) <? max_consecutive_guesses args);
      [apply incl_nil_l|].
    destruct (read_answer inp) as [[ans i]|]; simpl.
    2:{ apply incl_cons; [now left|apply incl_nil_l]. }
    destruct (String.eqb ans "u"); [destruct (history sess)|]; simpl;
      (apply incl_cons; [now left|apply incl_tl, IH]).
Qed.

Lemma manual_block_no_question sess inp : questions_asked (snd (manual_block sess inp)) = [].
Proof. unfold manual_block. repeat case_match; reflexivity. Qed.

Lemma guess_block_no_question args sess inp :
  questions_asked (snd (guess_block args sess inp)) = [].
Proof. unfold guess_block. repeat case_match; reflexivity. Qed.

Lemma question_block_questions args w sess inp :
  Forall (fun k => k ∉ asked (state sess)) (questions_asked (snd (question_block args w sess inp))).
Proof.
  unfold question_block.
  destruct (choose_best_question _ _ _ _ _ _ _) as [q|] eqn:Hq.
  2:{ rewrite manual_block_no_question. constructor. }
  apply choose_best_question_valid in Hq as [_ Hq].
  repeat case_match; simpl; repeat constructor; exact Hq.
Qed.

(** The keys a turn puts to the user are not in the asked set it starts
    from, unless an undo took place in it. *)
Lemma iteration_questions_not_asked args w sess inp :
  undone (snd (iteration args w sess inp)) = false ->
  Forall (fun k => k ∉ asked (state sess)) (questions_asked (snd (iteration args w sess inp))).
Proof.
  unfold iteration.
  destruct (candidates (state sess)) as [|c0 [|c1 r]]; try (intros _; constructor).
  assert (Ht : Forall (fun k => k ∉ asked (state sess))
                 (questions_asked (snd (targeted_block args w sess inp)))).
  { unfold targeted_block. destruct (_ <=? _); [|constructor].
    match goal with |- context [targeted_loop ?a ?t ?s ?i] =>
      pose proof (targeted_loop_questions a t s i) as Hincl;
      pose proof (get_discriminating_questions_not_asked (w_log2 w)
        (w_gathered_questions w (candidates (state sess)) (asked (state sess)))
        (candidates (state sess)) (asked (state sess)) 3) as Hfresh;
      destruct (targeted_loop a t s i) as [[[s1 i1]|] l1] end; simpl in *;
      apply Forall_forall; intros k Hk; apply list_elem_of_In, Hincl in Hk;
      apply in_map_iff in Hk as (q & <- & Hq); rewrite Forall_forall in Hfresh;
      apply (Hfresh q); now apply list_elem_of_In. }
  destruct (targeted_block args w sess inp) as [[s1 i1|o] l1] eqn:Hb; simpl in Ht.
  2:{ intros _. exact Ht. }
  pose proof (guess_block_no_question args s1 i1) as Hg.
  pose proof (guess_block_monotone args _ (asked_monotone args) s1 i1) as Hgm.
  destruct (guess_block args s1 i1) as [[s2 i2|o] l2]; simpl in Hg, Hgm.
  - subst s2. pose proof (question_block_questions args w s1 i2) as Hq.
    destruct (question_block args w s1 i2) as [o l3]. simpl in *.
    rewrite !undone_app. intros Hu. apply orb_false_iff in Hu as [Hu1 _].
    rewrite !questions_asked_app, Hg. simpl. apply Forall_app. split; [exact Ht|].
    pose proof (targeted_block_monotone args _ (asked_monotone args) w _ _ _ _ _ Hb Hu1) as Hsub.
    eapply Forall_impl; [exact Hq|]. intros k Hk Hin. apply Hk. now apply Hsub.
  - simpl. intros _. rewrite questions_asked_app, Hg, app_nil_r. exact Ht.
Qed.

(** ** Answered questions stay asked *)

Lemma targeted_loop_recorded args tqs : forall sess inp s1 i1 l1 q,
  targeted_loop args tqs sess inp = (Some (s1, i1), l1) ->
  retracted l1 = false -> In (EvQuestion q) l1 -> key q ∈ asked (state s1).
Proof.
  induction tqs as [|tq rest IH]; intros sess inp s1 i1 l1 q Hrun Hret Hin; simpl in Hrun.
  - inversion Hrun; subst. destruct Hin.
  - destruct (consecutive_guesses (state sess) <? max_consecutive_guesses args).
    { inversion Hrun; subst. destruct Hin. }
    destruct (read_answer inp) as [[ans i]|]; [|discriminate].
    destruct (String.eqb ans "u").
    { destruct (history sess); inversion Hrun; subst; discriminate Hret. }
    inversion Hrun as [[Hfst Hsnd]]. subst l1. simpl in Hret.
    destruct Hin as [Heq|Hin].
    + injection Heq as <-.
      pose proof (targeted_loop_monotone args _ (asked_monotone args) rest _ i _ _
                    (surjective_pairing _) (retracted_undone _ Hret)) as Hm.
      rewrite Hfst in Hm. cbn [state] in Hm. apply Hm.
      unfold answer_targeted_question.
      rewrite (proj1 (update_state_with_answer_frame _ tq ans (max_strikes args))).
      apply record_targeted_answer_frame.
    + eapply IH; [|exact Hret|exact Hin].
      rewrite <- Hfst. apply surjective_pairing.
Qed.

Lemma question_in_log_inv (q q0 : Question) (l : list event) :
  In (EvQuestion q) (EvQuestion q0 :: l) -> questions_asked l = [] -> q = q0.
Proof.
  intros [H|H] Hl; [now injection H|].
  assert (Hk : In (key q) (questions_asked l)).
  { apply list_elem_of_In, list_elem_of_omap. exists (EvQuestion q).
    split; [now apply list_elem_of_In|reflexivity]. }
  rewrite Hl in Hk. destruct Hk.
Qed.

Lemma no_question_in_log (q : Question) (l : list event) :
  questions_asked l = [] -> ~ In (EvQuestion q) l.
Proof.
  intros Hl H.
  assert (Hk : In (key q) (questions_asked l)).
  { apply list_elem_of_In, list_elem_of_omap. exists (EvQuestion q).
    split; [now apply list_elem_of_In|reflexivity]. }
  rewrite Hl in Hk. destruct Hk.
Qed.

Lemma question_block_recorded args w sess inp s' inp' log q :
  question_block args w sess inp = (Continue s' inp', log) ->
  retracted log = false -> In (EvQuestion q) log -> key q ∈ asked (state s').
Proof.
  unfold question_block.
  destruct (choose_best_question _ _ _ _ _ _ _) as [q0|].
  2:{ intros H _ Hin. exfalso. eapply no_question_in_log; [|exact Hin].
      pose proof (manual_block_no_question sess inp) as Hm. now rewrite H in Hm. }
  destruct (read_answer inp) as [[ans i]|]; [|discriminate].
  destruct (String.eqb ans "u").
  { destruct (history sess); intros H Hr; inversion H; subst; discriminate Hr. }
  pose proof (proj2 (asked_answer_question args q0 ans (state sess))) as Ha.
  destruct (candidates (answer_question args q0 ans (state sess))) as [|top r]; [discriminate|].
  destruct (movie_id top) as [mid|].
  2:{ intros H _ Hin; inversion H; subst. cbn [state].
      apply question_in_log_inv in Hin; [now subst|reflexivity]. }
  destruct ((9 <=? _) && (_ =? 0))%bool.
  - destruct (ask_yes_no i) as [[[|] i']|]; try discriminate.
    intros H _ Hin; inversion H; subst. cbn [state].
    apply question_in_log_inv in Hin; [subst|reflexivity].
    rewrite (proj1 (reject_guess_frame args (Some mid) _)).
    now rewrite (proj1 (proj2 (update_streak_frame mid _))).
  - intros H _ Hin; inversion H; subst. cbn [state].
    apply question_in_log_inv in Hin; [subst|reflexivity].
    now rewrite (proj1 (proj2 (update_streak_frame mid _))).
Qed.

(** A question put and answered in a turn is in the asked set the turn ends
    with. *)
Lemma iteration_recorded args w sess inp s' inp' log q :
  iteration args w sess inp = (Continue s' inp', log) ->
  retracted log = false -> In (EvQuestion q) log -> key q ∈ asked (state s').
Proof.
  unfold iteration.
  destruct (candidates (state sess)) as [|c0 [|c1 r]]; try discriminate.
  destruct (targeted_block args w sess inp) as [[s1 i1|o] l1] eqn:Hb.
  2:{ apply targeted_block_stop in Hb. subst o. discriminate. }
  assert (Ht : retracted l1 = false -> In (EvQuestion q) l1 -> key q ∈ asked (state s1)).
  { unfold targeted_block in Hb. destruct (_ <=? _).
    - destruct (targeted_loop _ _ _ _) as [[[s1' i1']|] l1'] eqn:Hl; inversion Hb; subst.
      now apply (targeted_loop_recorded _ _ _ _ _ _ _ q Hl).
    - inversion Hb; subst. intros _ []. }
  pose proof (guess_block_no_question args s1 i1) as Hg.
  pose proof (guess_block_monotone args _ (asked_monotone args) s1 i1) as Hgm.
  destruct (guess_block args s1 i1) as [[s2 i2|o] l2]; simpl in Hg, Hgm.
  - subst s2. destruct (question_block args w s1 i2) as [o l3] eqn:Hq.
    intros H Hr Hin; inversion H; subst.
    rewrite !retracted_app in Hr. apply orb_false_iff in Hr as [Hr1 Hr].
    apply orb_false_iff in Hr as [_ Hr3].
    apply in_app_or in Hin as [Hin|Hin].
    + apply (question_block_monotone args _ (asked_monotone args) w _ _ _ _ _ Hq
               (retracted_undone _ Hr3)). now apply Ht.
    + apply in_app_or in Hin as [Hin|Hin].
      * exfalso. now apply (no_question_in_log q l2 Hg).
      * now apply (question_block_recorded _ _ _ _ _ _ _ _ Hq Hr3).
  - intros H Hr Hin; inversion H; subst.
    rewrite retracted_app in Hr. apply orb_false_iff in Hr as [Hr1 _].
    apply in_app_or in Hin as [Hin|Hin].
    + apply Hgm. now apply Ht.
    + exfalso. now apply (no_question_in_log q l2 Hg).
Qed.

(** In a run without undo, no key of the asked set it starts from is put to
    the user. *)
Lemma run_questions_not_asked args w fuel : forall sess inp k,
  k ∈ asked (state sess) ->
  undone (snd (run fuel args w sess inp)) = false ->
  ~ In k (questions_asked (snd (run fuel args w sess inp))).
Proof.
  induction fuel as [|fuel IH]; intros sess inp k Hk; simpl.
  - intros _ [].
  - pose proof (iteration_questions_not_asked args w sess inp) as Hfresh.
    pose proof (iteration_monotone args _ (asked_monotone args) w sess inp) as Hmono.
    destruct (iteration args w sess inp) as [[s' inp'| | |] log] eqn:Hit; simpl in *;
      try (intros Hu Hin; specialize (Hfresh Hu); rewrite Forall_forall in Hfresh;
           apply (Hfresh k); [now apply list_elem_of_In|exact Hk]).
    specialize (IH s' inp' k).
    destruct (run fuel args w s' inp') as [s'' log'] eqn:Hrun. simpl in *.
    rewrite undone_app, questions_asked_app.
    intros Hu Hin. apply orb_false_iff in Hu as [Hu1 Hu2].
    apply in_app_or in Hin as [Hin|Hin].
    + specialize (Hfresh Hu1). rewrite Forall_forall in Hfresh.
      apply (Hfresh k); [now apply list_elem_of_In|exact Hk].
    + apply IH; [|exact Hu2|exact Hin].
      apply (Hmono s' inp' log eq_refl Hu1). exact Hk.
Qed.

(** ** C7 *)

(** C7 (as stated, refuted). The first turn puts "language_en" and the
    answer adds it to the asked set; the second turn puts "language_fr" and
    the user undoes; the third turn puts "language_en" again. *)
Lemma undo_offers_question_again :
  "language_en" ∈ asked (state (fst (run 1 default_args language_world
                                       (initial_session [inception; amelie]) ["?"])))
  /\ questions_asked (snd (run 3 default_args language_world
                             (initial_session [inception; amelie]) ["?"; "u"]))
     = ["language_en"; "language_fr"; "language_en"].
Proof.
  split.
  - apply (bool_decide_unpack _). vm_compute. exact I.
  - vm_compute. reflexivity.
Qed.

(** C7 (amended). A question put to the user and answered in a turn (neither
    taken back nor left unanswered by "u") has its key in the asked set from
    then on; [choose_best_question] returns no question with that key for
    that asked set; and as long as no undo takes place, no later turn puts a
    question with that key.  (An undo restores the asked set of the snapshot
    it pops.) *)
Theorem asked_key_not_offered_again (args : Args) (w : World) (sess sess' : Session)
    (inp inp' : list string) (log : list event) (q : Question)
    (fuel : nat) (later : list string) :
  iteration args w sess inp = (Continue sess' inp', log) ->
  In (EvQuestion q) log ->
  retracted log = false ->
  key q ∈ asked (state sess')
  /\ (forall rnd cands questions first st q',
        choose_best_question (w_log2 w) rnd cands questions (asked (state sess')) first st
        = Some q' -> key q' <> key q)
  /\ (undone (snd (run fuel args w sess' later)) = false ->
      ~ In (key q) (questions_asked (snd (run fuel args w sess' later)))).
Proof.
  intros Hit Hin Hret.
  pose proof (iteration_recorded args w sess inp sess' inp' log q Hit Hret Hin) as Hk.
  split; [exact Hk|]. split.
  - intros rnd cands questions first st q' Hc Heq.
    apply choose_best_question_valid in Hc as [_ Hc]. apply Hc. now rewrite Heq.
  - now apply run_questions_not_asked.
Qed.

Lemma asked_key_not_offered_again_witness :
  iteration default_args language_world (initial_session [inception; amelie]) ["?"; "?"]
  = (Continue (fst (run 1 default_args language_world
                      (initial_session [inception; amelie]) ["?"])) ["?"],
     [EvQuestion language_en])
  /\ ~ In (key language_en)
         (questions_asked
            (snd (run 3 default_args language_world
                    (fst (run 1 default_args language_world
                            (initial_session [inception; amelie]) ["?"])) ["?"]))).
Proof.
  assert (Hit : iteration default_args language_world
                  (initial_session [inception; amelie]) ["?"; "?"]
                = (Continue (fst (run 1 default_args language_world
                                    (initial_session [inception; amelie]) ["?"])) ["?"],
                   [EvQuestion language_en])).
  { vm_compute. reflexivity. }
  split; [exact Hit|].
  apply (asked_key_not_offered_again default_args language_world _ _ _ _ _ language_en
           3%nat ["?"] Hit).
  - now left.
  - reflexivity.
  - vm_compute. reflexivity.
Defined.

(** ** C8 *)

(** The language questions of the registry are those of [all_languages]. *)
Lemma registry_language_keys :
  Forall (fun k => startswith k "language_" = true -> In k all_languages)
    default_question_keys.
Proof.
  assert (H : forallb (fun k => implb (startswith k "language_")
                                   (existsb (String.eqb k) all_languages))
                default_question_keys = true) by (vm_compute; reflexivity).
  rewrite forallb_forall in H. apply Forall_forall. intros k Hk Hs.
  apply list_elem_of_In in Hk. specialize (H k Hk). rewrite Hs in H.
  cbn [implb] in H. apply existsb_exists in H as (l & Hl & He). apply String.eqb_eq in He. now subst.
Qed.

Lemma record_answer_language q st :
  startswith (key q) "language_" = true ->
  Forall (fun l => l ∈ asked (record_answer q "y" st)) all_languages.
Proof.
  intros Hs. apply Forall_forall. intros l Hl. apply list_elem_of_In in Hl.
  unfold record_answer. rewrite Hs. simpl (String.eqb "y" "y" && true)%bool. cbv iota.
  assert (Ha : forall s, asked (tick_cooldown s) = asked s).
  { intros s. unfold tick_cooldown. now destruct (0 <? guess_cooldown s). }
  rewrite Ha. cbn [asked set_consecutive_guesses set_question_count set_asked
                   set_recent_question_types].
  destruct (String.eqb_spec l (key q)) as [->|Hne].
  - apply elem_of_union_l, elem_of_union_l. now apply elem_of_singleton.
  - apply elem_of_union_r, elem_of_list_to_set, list_elem_of_In, filter_In.
    split; [exact Hl|]. apply negb_true_iff. now apply String.eqb_neq.
Qed.

(** C8 (as stated, refuted). "yes" to "language_en" marks every language key
    as asked; the user undoes at the next question and answers "no" to
    "language_en" instead: the turn after that puts "language_fr". *)
Lemma undo_offers_other_language :
  Forall (fun l => l ∈ asked (state (fst (run 1 default_args quiz_world
                      (initial_session [inception; memento; amelie; parasite]) ["y"]))))
    all_languages
  /\ questions_asked (snd (run 4 default_args quiz_world
                             (initial_session [inception; memento; amelie; parasite])
                             ["y"; "u"; "n"]))
     = ["language_en"; "popular"; "language_en"; "language_fr"].
Proof.
  split.
  - repeat constructor; apply (bool_decide_unpack _); vm_compute; exact I.
  - vm_compute. reflexivity.
Qed.

(** C8 (amended). "yes" to a language question in a regular turn adds every
    key of [all_languages] to the asked set; from a session whose asked set
    holds them, as long as no undo takes place, no turn puts a language
    question.  (An undo restores the asked set of the snapshot it pops.) *)
Theorem language_confirmed (args : Args) (w : World) (q : Question) (st : EngineState)
    (sess : Session) (fuel : nat) (inp : list string) :
  startswith (key q) "language_" = true ->
  asked (answer_question args q "y" st) ⊆ asked (state sess) ->
  Forall (fun l => l ∈ asked (answer_question args q "y" st)) all_languages
  /\ (undone (snd (run fuel args w sess inp)) = false ->
      Forall (fun k => ~ In k all_languages)
        (questions_asked (snd (run fuel args w sess inp)))).
Proof.
  intros Hs Hsub.
  assert (Hall : Forall (fun l => l ∈ asked (answer_question args q "y" st)) all_languages).
  { unfold answer_question.
    rewrite (proj1 (update_state_with_answer_frame _ q "y" (max_strikes args))).
    now apply record_answer_language. }
  split; [exact Hall|].
  intros Hu. apply Forall_forall. intros k Hk Hin.
  apply list_elem_of_In in Hk.
  apply (run_questions_not_asked args w fuel sess inp k); [|exact Hu|exact Hk].
  apply Hsub. rewrite Forall_forall in Hall. apply Hall. now apply list_elem_of_In.
Qed.

Lemma language_confirmed_witness :
  startswith (key language_en) "language_" = true
  /\ Forall (fun k => ~ In k all_languages)
       (questions_asked
          (snd (run 2 default_args quiz_world
                  (fst (run 1 default_args quiz_world
                          (initial_session [inception; memento; amelie; parasite]) ["y"]))
                  ["n"]))).
Proof.
  split; [reflexivity|].
  apply (language_confirmed default_args quiz_world language_en
           (state (initial_session [inception; memento; amelie; parasite]))
           (fst (run 1 default_args quiz_world
                   (initial_session [inception; memento; amelie; parasite]) ["y"]))
           2%nat ["n"] eq_refl).
  - apply (bool_decide_unpack _). vm_compute. exact I.
  - vm_compute. reflexivity.
Defined.

(* ===================================================================== *)
(** * Further properties of the engine and of the loop *)
(* ===================================================================== *)



Lemma id_in_singleton (o : option Z) (mid : Z) :
  id_in o [mid] = true <-> o = Some mid.
Proof.
  destruct o as [i|]; simpl; [|split; discriminate].
  rewrite orb_false_r, Z.eqb_eq. split; congruence.
Qed.

Lemma filter_filter_same {A} (f : A -> bool) (l : list A) :
  List.filter f (List.filter f l) = List.filter f l.
Proof.
  apply filter_all. intros x Hx. now apply filter_In in Hx.
Qed.

(** X1. [eliminate_movie] takes out of the pool the rows whose identifier is
    [mid] and no other row, keeps the remaining rows in their order, deletes
    the entry of [mid] from the scores and from the strikes and leaves every
    other entry as it is; a second call with the same identifier changes
    nothing. *)
Theorem eliminate_movie_spec (st : EngineState) (mid : Z) :
  let st' := eliminate_movie st mid in
  (forall m, In m (candidates st') <-> In m (candidates st) /\ movie_id m <> Some mid)
  /\ sublist (candidates st') (candidates st)
  /\ scores st' !! mid = None /\ strikes st' !! mid = None
  /\ (forall i, i <> mid ->
        scores st' !! i = scores st !! i /\ strikes st' !! i = strikes st !! i)
  /\ eliminate_movie st' mid = st'.
Proof.
  cbn zeta. unfold eliminate_movie;
    cbn [candidates scores strikes set_candidates set_scores set_strikes].
  split; [|split; [|split; [|split; [|split]]]].
  - intros m. rewrite filter_In, negb_true_iff. split; intros [Hin Hb]; (split; [exact Hin|]).
    + intros E. apply id_in_singleton in E. congruence.
    + destruct (id_in (movie_id m) [mid]) eqn:E; [|reflexivity].
      apply id_in_singleton in E. contradiction.
  - apply filter_sublist.
  - apply lookup_delete_eq.
  - apply lookup_delete_eq.
  - intros i Hne. split; now apply lookup_delete_ne.
  - unfold set_strikes, set_scores, set_candidates; cbn.
    rewrite filter_filter_same. f_equal; apply delete_delete_eq.
Qed.

(** ** The initial scores *)

Lemma init_scores_lookup (movies : list movie) : forall (sc : gmap Z float) (mid : Z),
  init_scores movies sc !! mid =
  if bool_decide (mid ∈ remaining_ids movies) then Some 0%float else sc !! mid.
Proof.
  induction movies as [|m rest IH]; intros sc mid; simpl.
  - reflexivity.
  - unfold remaining_ids in *. simpl. destruct (movie_id m) as [i|] eqn:Hi; simpl.
    + rewrite IH.
      destruct (decide (mid = i)) as [->|Hne].
      * rewrite (bool_decide_eq_true_2 (i ∈ {[i]} ∪ _)) by set_solver.
        rewrite lookup_insert_eq. now case_bool_decide.
      * rewrite lookup_insert_ne by congruence.
        repeat case_bool_decide; try reflexivity; set_solver.
    + rewrite IH. reflexivity.
Qed.

(** X2. In the state [init_state] builds, an identifier has a score, 0.0,
    exactly when a row of the catalogue carries it: a row without identifier
    gets no entry, and no other key is created. *)
Theorem init_state_scores (movies : list movie) (mid : Z) :
  scores (init_state movies) !! mid =
  if bool_decide (mid ∈ remaining_ids movies) then Some 0%float else None.
Proof. unfold init_state; simpl. now rewrite init_scores_lookup, lookup_empty. Qed.

(** ** The keys of the scores *)

Lemma bump_is_Some sc i v mid : is_Some (sc !! mid) -> is_Some (bump sc i v !! mid).
Proof.
  intros H. destruct v; simpl; try exact H;
    (destruct (decide (i = mid)) as [->|Hne];
     [rewrite lookup_insert_eq; eauto|now rewrite lookup_insert_ne]).
Qed.

Lemma bump_is_Some_inv sc i v mid :
  is_Some (bump sc i v !! mid) -> is_Some (sc !! mid) \/ (mid = i /\ v <> Nothing).
Proof.
  destruct v; simpl; [| |now left];
    (destruct (decide (i = mid)) as [->|Hne];
     [right; split; [reflexivity|discriminate]|rewrite lookup_insert_ne by exact Hne; now left]).
Qed.

Lemma answer_loop_keeps_keys rule p cands : forall sc mid,
  is_Some (sc !! mid) -> is_Some (snd (answer_loop rule p cands sc) !! mid).
Proof.
  induction cands as [|m rest IH]; intros sc mid H; simpl; [exact H|].
  destruct (movie_id m) as [i|]; [|now apply IH].
  destruct (rule (p m)) eqn:Hr; simpl; try now apply IH.
  - apply IH. now apply (bump_is_Some sc i (Add d)).
  - apply IH. now apply (bump_is_Some sc i (Sub d)).
Qed.

Lemma answer_loop_new_keys rule p cands : forall sc mid,
  is_Some (snd (answer_loop rule p cands sc) !! mid) ->
  is_Some (sc !! mid) \/ mid ∈ remaining_ids (fst (answer_loop rule p cands sc)).
Proof.
  induction cands as [|m rest IH]; intros sc mid H; simpl in *; [now left|].
  destruct (movie_id m) as [i|] eqn:Hi; [|now apply IH].
  destruct (rule (p m)) eqn:Hr; simpl in *; try now apply IH.
  - apply IH in H as [H|H].
    + apply (bump_is_Some_inv sc i (Add d) mid) in H as [H|[-> _]]; [now left|right].
      unfold remaining_ids. simpl. rewrite Hi. set_solver.
    + right. unfold remaining_ids in *. simpl. rewrite Hi. set_solver.
  - apply IH in H as [H|H].
    + apply (bump_is_Some_inv sc i (Sub d) mid) in H as [H|[-> _]]; [now left|right].
      unfold remaining_ids. simpl. rewrite Hi. set_solver.
    + right. unfold remaining_ids in *. simpl. rewrite Hi. set_solver.
Qed.

Lemma answer_loop_kept_keys rule p cands : forall sc mid,
  mid ∈ remaining_ids (fst (answer_loop rule p cands sc)) ->
  is_Some (snd (answer_loop rule p cands sc) !! mid).
Proof.
  induction cands as [|m rest IH]; intros sc mid H; simpl in *.
  - unfold remaining_ids in H. simpl in H. set_solver.
  - destruct (movie_id m) as [i|] eqn:Hi; [|now apply IH].
    destruct (rule (p m)) eqn:Hr; simpl in *; try now apply IH.
    + unfold remaining_ids in H. simpl in H. rewrite Hi in H.
      rewrite list_to_set_cons in H. apply elem_of_union in H as [H|H].
      * apply elem_of_singleton in H as ->. apply answer_loop_keeps_keys.
        simpl. rewrite lookup_insert_eq. eauto.
      * now apply IH.
    + unfold remaining_ids in H. simpl in H. rewrite Hi in H.
      rewrite list_to_set_cons in H. apply elem_of_union in H as [H|H].
      * apply elem_of_singleton in H as ->. apply answer_loop_keeps_keys.
        simpl. rewrite lookup_insert_eq. eauto.
      * now apply IH.
Qed.

Lemma answer_loop_fst_ids rule p cands sc mid :
  mid ∈ remaining_ids (fst (answer_loop rule p cands sc)) -> mid ∈ remaining_ids cands.
Proof.
  rewrite answer_loop_fst, !remaining_ids_spec. intros (m & Hin & Hid).
  apply filter_In in Hin as [Hin _]. eauto.
Qed.

Lemma keep_ids_is_Some {V} (ids : gset Z) (d : gmap Z V) (mid : Z) :
  is_Some (keep_ids ids d !! mid) <-> mid ∈ ids /\ is_Some (d !! mid).
Proof.
  unfold keep_ids. split.
  - intros [v Hv]. apply map_lookup_filter_Some in Hv as [Hv Hin]. simpl in Hin. eauto.
  - intros [Hin [v Hv]]. exists v. apply map_lookup_filter_Some. now split.
Qed.

Lemma remaining_ids_Permutation l k : Permutation l k -> remaining_ids l = remaining_ids k.
Proof.
  intros HP. apply set_eq. intros mid. rewrite !remaining_ids_spec.
  split; intros (m & Hin & Hid); exists m; (split; [|exact Hid]).
  - now apply (Permutation_in _ HP).
  - now apply (Permutation_in _ (Permutation_sym HP)).
Qed.


Lemma scores_keyed_apply_answer st q ans :
  scores_keyed st -> scores_keyed (apply_answer st q ans).
Proof.
  intros HK mid. unfold apply_answer.
  assert (Helim : forall rule, 
    is_Some (scores (elimination_pass rule q st) !! mid) <->
    mid ∈ remaining_ids (candidates (elimination_pass rule q st))).
  { intros rule. unfold elimination_pass. cbn [scores candidates set_strikes set_scores set_candidates].
    rewrite keep_ids_is_Some. split; [now intros [? _]|].
    intros H. split; [exact H|]. now apply answer_loop_kept_keys. }
  assert (Hscore : forall rule,
    is_Some (scores (score_pass rule q st) !! mid) <->
    mid ∈ remaining_ids (candidates (score_pass rule q st))).
  { intros rule. unfold score_pass. cbn [scores candidates set_scores]. split.
    - intros H. apply answer_loop_new_keys in H as [H|H]; [now apply HK|].
      eapply answer_loop_fst_ids; eauto.
    - intros H. apply answer_loop_keeps_keys. now apply HK. }
  repeat case_match; auto.
Qed.

Lemma pop_all_is_Some {V} (l : list Z) (d : gmap Z V) (mid : Z) :
  is_Some (pop_all l d !! mid) <-> ~ In mid l /\ is_Some (d !! mid).
Proof.
  unfold pop_all. revert d. induction l as [|i l IH]; intros d; simpl.
  - tauto.
  - rewrite IH. destruct (decide (i = mid)) as [->|Hne].
    + rewrite lookup_delete_eq. split.
      * intros [_ [? ?]]; discriminate.
      * intros [H _]. exfalso. apply H. now left.
    + rewrite lookup_delete_ne by exact Hne. split.
      * intros [H1 H2]. split; [|exact H2]. intros [E|E]; [congruence|contradiction].
      * intros [H1 H2]. split; [|exact H2]. intros E. apply H1. now right.
Qed.

Lemma scores_keyed_strike_removal st ms :
  scores_keyed st -> scores_keyed (strike_removal st ms).
Proof.
  intros HK mid. unfold strike_removal.
  destruct (to_remove (strikes st) ms (candidates st)) as [|i0 tr0] eqn:Htr; [apply HK|].
  rewrite <- Htr. cbn [scores candidates set_strikes set_scores set_candidates].
  rewrite pop_all_is_Some, remaining_ids_spec. split.
  - intros [Hn Hs]. apply HK in Hs. apply remaining_ids_spec in Hs as (m & Hin & Hid).
    exists m. split; [|exact Hid]. apply filter_In. split; [exact Hin|].
    apply negb_true_iff. rewrite Hid.
    destruct (id_in (Some mid) _) eqn:E; [|reflexivity].
    apply id_in_spec in E. contradiction.
  - intros (m & Hin & Hid). apply filter_In in Hin as [Hin Hb].
    apply negb_true_iff in Hb. rewrite Hid in Hb. split.
    + intros E. apply id_in_spec in E. congruence.
    + apply HK. apply remaining_ids_spec. eauto.
Qed.

Lemma scores_keyed_sort st : scores_keyed st -> scores_keyed (sort_candidates st).
Proof.
  intros HK mid. unfold sort_candidates; cbn [scores candidates].
  rewrite (remaining_ids_Permutation _ _ (sorted_candidates_Permutation _ _)). apply HK.
Qed.

Lemma scores_keyed_update st q ans ms :
  scores_keyed st -> scores_keyed (update_state_with_answer st q ans ms).
Proof.
  intros HK. unfold update_state_with_answer. apply scores_keyed_sort.
  destruct (is_hard_elimination (key q)).
  - now apply scores_keyed_apply_answer.
  - now apply scores_keyed_strike_removal, scores_keyed_apply_answer.
Qed.

Lemma scores_keyed_eliminate st mid : scores_keyed st -> scores_keyed (eliminate_movie st mid).
Proof.
  intros HK i. unfold eliminate_movie. cbn [scores candidates set_strikes set_scores set_candidates].
  rewrite remaining_ids_spec. split.
  - intros Hs. destruct (decide (mid = i)) as [->|Hne].
    { rewrite lookup_delete_eq in Hs. destruct Hs; discriminate. }
    rewrite lookup_delete_ne in Hs by exact Hne.
    apply HK, remaining_ids_spec in Hs as (m & Hin & Hid).
    exists m. split; [|exact Hid]. apply filter_In. split; [exact Hin|].
    apply negb_true_iff. destruct (id_in (movie_id m) [mid]) eqn:E; [|reflexivity].
    apply id_in_singleton in E. congruence.
  - intros (m & Hin & Hid). apply filter_In in Hin as [Hin Hb].
    apply negb_true_iff in Hb.
    assert (mid <> i).
    { intros ->. rewrite Hid in Hb. simpl in Hb. rewrite Z.eqb_refl in Hb. discriminate. }
    rewrite lookup_delete_ne by assumption. apply HK, remaining_ids_spec. eauto.
Qed.

Lemma scores_keyed_frame (st st' : EngineState) :
  candidates st' = candidates st -> scores st' = scores st ->
  scores_keyed st -> scores_keyed st'.
Proof. intros Hc Hs HK mid. rewrite Hc, Hs. apply HK. Qed.

Lemma scores_keyed_preserved args : preserved args scores_keyed.
Proof.
  split.
  - intros q ans st HK. unfold answer_question. apply scores_keyed_update.
    destruct (record_answer_frame q ans st) as (Hc & Hs & _). 
    now apply (scores_keyed_frame st).
  - intros q ans st HK. unfold answer_targeted_question. apply scores_keyed_update.
    destruct (record_targeted_answer_frame q st) as (Hc & Hs & _).
    now apply (scores_keyed_frame st).
  - intros mid st HK. destruct (update_streak_frame mid st) as (Hc & _ & Hs & _).
    now apply (scores_keyed_frame st).
  - intros mid st HK _. unfold reject_guess.
    apply (scores_keyed_frame (sort_candidates (match mid with Some i => eliminate_movie st i | None => st end)));
      [reflexivity|reflexivity|].
    apply scores_keyed_sort. destruct mid; [now apply scores_keyed_eliminate|exact HK].
  - intros mid st HK. now apply scores_keyed_sort, scores_keyed_eliminate.
  - intros st HK. now apply scores_keyed_sort.
Qed.

Lemma scores_keyed_initial movies : scores_keyed (state (initial_session movies)).
Proof.
  unfold initial_session; cbn [state].
  apply (scores_keyed_frame (sort_candidates (init_state movies))); [reflexivity|reflexivity|].
  apply scores_keyed_sort. intros mid. cbn [scores candidates init_state].
  rewrite init_scores_lookup, lookup_empty.
  case_bool_decide; split; intros H'; eauto; try contradiction. destruct H'; discriminate.
Qed.

(** X3. In every session [main] can reach, in the live state and in every
    snapshot of the history, the keys of [state.scores] are exactly the
    identifiers of the rows of the pool: each row with an identifier has an
    entry, and the entry of a row leaves the dict when the row leaves the
    pool (by an answer, by a refused guess or by a manual elimination). *)
Theorem scores_follow_pool (args : Args) (w : World) (movies : list movie) (sess : Session) :
  reachable args w movies sess ->
  (forall mid, is_Some (scores (state sess) !! mid)
               <-> exists m, In m (candidates (state sess)) /\ movie_id m = Some mid)
  /\ Forall (fun snap => forall mid, is_Some (scores snap !! mid)
               <-> exists m, In m (candidates snap) /\ movie_id m = Some mid) (history sess).
Proof.
  intros Hr.
  destruct (reachable_inv args scores_keyed (scores_keyed_preserved args) w movies sess
              (scores_keyed_initial movies) Hr) as [Hs Hh].
  split.
  - intros mid. rewrite <- remaining_ids_spec. apply Hs.
  - eapply Forall_impl; [exact Hh|]. intros snap HK mid. rewrite <- remaining_ids_spec. apply HK.
Qed.

Lemma scores_follow_pool_witness :
  reachable default_args language_world [inception; amelie; untitled]
    (fst (run 1 default_args language_world
            (initial_session [inception; amelie; untitled]) ["n"]))
  /\ (is_Some (scores (state (fst (run 1 default_args language_world
                                    (initial_session [inception; amelie; untitled]) ["n"])))
               !! 27205)
      <-> exists m, In m (candidates (state (fst (run 1 default_args language_world
                                    (initial_session [inception; amelie; untitled]) ["n"]))))
                    /\ movie_id m = Some 27205).
Proof.
  assert (Hr : reachable default_args language_world [inception; amelie; untitled]
                 (fst (run 1 default_args language_world
                         (initial_session [inception; amelie; untitled]) ["n"]))).
  { eapply (reachable_step _ _ _ (initial_session [inception; amelie; untitled]) ["n"]).
    - apply reachable_init.
    - vm_compute. reflexivity. }
  split; [exact Hr|].
  exact (proj1 (scores_follow_pool default_args language_world
                  [inception; amelie; untitled] _ Hr) 27205).
Defined.

(** ** Uncertain answers *)

Lemma to_remove_below (st : gmap Z Z) (ms : Z) (cands : list movie) :
  (forall i, strikes_get st i < ms) -> to_remove st ms cands = [].
Proof.
  intros H. destruct (to_remove st ms cands) as [|i r] eqn:E; [reflexivity|].
  assert (Hi : In i (to_remove st ms cands)) by (rewrite E; now left).
  apply to_remove_spec in Hi as (m & _ & _ & Hge). specialize (H i). lia.
Qed.

Lemma scores_get_bump sc mid v :
  scores_get (bump sc mid v) mid = after v (scores_get sc mid).
Proof.
  destruct v; simpl; try reflexivity; unfold scores_get at 1; now rewrite lookup_insert_eq.
Qed.

Lemma score_pass_update rule st q ms ans :
  apply_answer st q ans = score_pass rule q st ->
  (is_hard_elimination (key q) = true \/ forall i, strikes_get (strikes st) i < ms) ->
  update_state_with_answer st q ans ms = sort_candidates (score_pass rule q st).
Proof.
  intros Ha Hs. unfold update_state_with_answer. rewrite Ha.
  destruct (is_hard_elimination (key q)); [reflexivity|].
  destruct Hs as [Hs|Hs]; [discriminate|].
  unfold strike_removal. cbn [strikes candidates score_pass set_scores].
  now rewrite to_remove_below.
Qed.

(** X4. The answers "py", "pn" and "?" remove no row and record no strike.
    For a hard-elimination question, or when no strike count has reached
    [max_strikes], [update_state_with_answer] only reorders the pool, leaves
    the strikes and the asked set as they are, and changes the score of a
    row of the pool (identifiers distinct) by the verdict of the answer's
    rule on that row alone: "py" adds 1.5 or -2.0 for a hard question and
    0.5 or -0.75 for a soft one, "pn" the mirror image, "?" adds 0.2 to the
    rows on which the predicate is unknown. *)
Theorem uncertain_answer (st : EngineState) (q : Question) (ms : Z) (ans : Answer)
    (m : movie) (mid : Z) :
  In ans ["py"; "pn"; "?"] ->
  (is_hard_elimination (key q) = true \/ forall i, strikes_get (strikes st) i < ms) ->
  NoDup (map movie_id (candidates st)) ->
  In m (candidates st) -> movie_id m = Some mid ->
  let hard := is_hard_elimination (key q) in
  let rule := if String.eqb ans "py" then rule_py hard
              else if String.eqb ans "pn" then rule_pn hard
              else rule_unknown in
  let st' := update_state_with_answer st q ans ms in
  Permutation (candidates st') (candidates st)
  /\ strikes st' = strikes st
  /\ asked st' = asked st
  /\ scores_get (scores st') mid = after (rule (predicate q m)) (scores_get (scores st) mid).
Proof.
  intros Hans Hs Hnd Hin Hid hard rule st'.
  assert (Ha : apply_answer st q ans = score_pass rule q st).
  { unfold rule, hard, apply_answer.
    destruct Hans as [<-|[<-|[<-|[]]]]; reflexivity. }
  unfold st'. rewrite (score_pass_update rule st q ms ans Ha Hs).
  split; [|split; [|split]].
  - exact (sort_candidates_Permutation (score_pass rule q st)).
  - reflexivity.
  - reflexivity.
  - cbn [scores sort_candidates score_pass set_scores].
    unfold scores_get at 1.
    rewrite (answer_loop_snd_present rule (predicate q) (candidates st) (scores st) m mid
               Hnd Hin Hid).
    apply scores_get_bump.
Qed.

Lemma uncertain_answer_witness :
  In "?" ["py"; "pn"; "?"]
  /\ NoDup (map movie_id (candidates (init_state [inception; untitled])))
  /\ scores_get (scores (update_state_with_answer (init_state [inception; untitled])
                           language_fr "?" 3)) 7
     = (0 + 0.2)%float
  /\ Permutation
       (candidates (update_state_with_answer (init_state [inception; untitled])
                      language_fr "?" 3))
       [inception; untitled].
Proof.
  assert (H1 : In "?" ["py"; "pn"; "?"]) by (right; right; now left).
  assert (H2 : NoDup (map movie_id (candidates (init_state [inception; untitled])))).
  { simpl. repeat (apply NoDup_cons; split); try apply NoDup_nil_2;
      rewrite list_elem_of_In; simpl; intuition discriminate. }
  destruct (uncertain_answer (init_state [inception; untitled]) language_fr 3 "?" untitled 7
              H1 (or_introl eq_refl) H2 (or_intror (or_introl eq_refl)) eq_refl)
    as (Hp & _ & _ & Hsc).
  split; [exact H1|]. split; [exact H2|]. split; [|exact Hp].
  exact Hsc.
Defined.

(** ** The question chosen *)

Lemma scored_questions_positive log2 cands state valid q s :
  In (q, s) (scored_questions log2 cands state valid) ->
  In q valid /\ PrimFloat.ltb 0 (score log2 q cands) = true.
Proof.
  unfold scored_questions. rewrite <- !list_elem_of_In, list_elem_of_omap.
  intros (q' & Hq' & Hf).
  destruct (PrimFloat.ltb 0 (score log2 q' cands)) eqn:Hs; [|discriminate].
  injection Hf as -> _. now split.
Qed.

Lemma choose_best_question_scored log2 rnd cands questions asked first state q :
  choose_best_question log2 rnd cands questions asked first state = Some q ->
  In q questions /\ is_valid_question asked q = true
  /\ PrimFloat.ltb 0 (score log2 q cands) = true.
Proof.
  unfold choose_best_question.
  set (valid := List.filter (is_valid_question asked) questions).
  destruct valid as [|v0 vr] eqn:Hvalid; [discriminate|]. rewrite <- Hvalid. clear Hvalid v0 vr.
  set (valid' := if (150 <? length valid)%nat then firstn 150 valid else valid).
  assert (Hv : forall x, In x valid' -> In x questions /\ is_valid_question asked x = true).
  { intros x Hx.
    assert (Hx' : In x valid).
    { unfold valid' in Hx. destruct (150 <? length valid)%nat; [|exact Hx].
      eapply firstn_incl; eauto. }
    unfold valid in Hx'. now apply filter_In in Hx'. }
  destruct (scored_questions log2 cands state valid') as [|s0 sr] eqn:Hs; [discriminate|].
  rewrite <- Hs. clear s0 sr Hs.
  set (sorted := sort_by _ (scored_questions log2 cands state valid')).
  assert (Hsorted : forall x, In x sorted ->
            In (fst x) questions /\ is_valid_question asked (fst x) = true
            /\ PrimFloat.ltb 0 (score log2 (fst x) cands) = true).
  { intros [x s] Hx. unfold sorted in Hx. apply sort_by_In in Hx.
    apply scored_questions_positive in Hx as [Hx Hpos].
    apply Hv in Hx as [H1 H2]. simpl. auto. }
  destruct (first && (5 <=? length sorted)%nat)%bool.
  - destruct (nth_error (firstn 5 sorted) (rnd mod 5)) as [x|] eqn:Hn; [|discriminate].
    simpl. intros [= <-]. apply Hsorted. apply nth_error_In in Hn.
    eapply firstn_incl; eauto.
  - destruct sorted as [|x r]; [discriminate|]. simpl. intros [= <-].
    apply Hsorted. now left.
Qed.

Lemma jokers_used_none (asked : gset string) :
  (1 <=? jokers_used asked) = false ->
  forall k, k ∈ asked -> startswith k "joker_title_" = false.
Proof.
  unfold jokers_used. intros H k Hk. apply Z.leb_gt in H.
  destruct (List.filter _ (elements asked)) as [|x r] eqn:Hf; [|simpl in H; lia].
  destruct (startswith k "joker_title_") eqn:Hs; [|reflexivity].
  assert (Hin : In k (List.filter (fun k => startswith k "joker_title_") (elements asked))).
  { apply filter_In. split; [|exact Hs]. now apply list_elem_of_In, elem_of_elements. }
  rewrite Hf in Hin. destruct Hin.
Qed.

Lemma is_valid_question_true asked q :
  is_valid_question asked q = true ->
  match requires q with
  | Some r => negb (bool_decide (r = ∅)) && negb (bool_decide (r ⊆ asked))
  | None => false
  end = false
  /\ match excludes q with
     | Some e => negb (bool_decide (e = ∅)) && negb (bool_decide (e ∩ asked = ∅))
     | None => false
     end = false
  /\ (startswith (key q) "joker_title_" && (1 <=? jokers_used asked))%bool = false
  /\ match contradiction_of (key q) contradictions with
     | Some other => bool_decide (other ∈ asked)
     | None => false
     end = false.
Proof.
  unfold is_valid_question.
  repeat match goal with
         | |- (if ?c then _ else _) = true -> _ => destruct c eqn:?
         end; try discriminate; auto.
Qed.

(** X5. A question [choose_best_question] returns is one of the questions
    it was given and passed every filter: its key is not asked, the keys it
    requires are all asked, none of the keys it excludes is asked, if it is a
    title joker then no title joker is asked, the key its key contradicts is
    not asked, and its score on the pool is positive. *)
Theorem choose_best_question_sound (log2 : float -> float) (rnd : nat) (cands : list movie)
    (questions : list Question) (asked : gset string) (first : bool)
    (state : option EngineState) (q : Question) :
  choose_best_question log2 rnd cands questions asked first state = Some q ->
  In q questions
  /\ key q ∉ asked
  /\ (forall r, requires q = Some r -> r ⊆ asked)
  /\ (forall e, excludes q = Some e -> e ∩ asked = ∅)
  /\ (startswith (key q) "joker_title_" = true ->
      forall k, k ∈ asked -> startswith k "joker_title_" = false)
  /\ (forall other, contradiction_of (key q) contradictions = Some other -> other ∉ asked)
  /\ PrimFloat.ltb 0 (score log2 q cands) = true.
Proof.
  intros H. apply choose_best_question_scored in H as (Hin & Hv & Hpos).
  pose proof (is_valid_question_not_asked _ _ Hv) as Hk.
  apply is_valid_question_true in Hv as (Hreq & Hex & Hj & Hc).
  repeat split; try assumption.
  - intros r Hr. rewrite Hr in Hreq.
    apply andb_false_iff in Hreq as [Hreq|Hreq];
      apply negb_false_iff, bool_decide_eq_true in Hreq; [|exact Hreq].
    subst r. set_solver.
  - intros e He. rewrite He in Hex.
    apply andb_false_iff in Hex as [Hex|Hex];
      apply negb_false_iff, bool_decide_eq_true in Hex; [|exact Hex].
    subst e. set_solver.
  - intros Hs. rewrite Hs in Hj. now apply jokers_used_none.
  - intros other Ho. rewrite Ho in Hc. now apply bool_decide_eq_false in Hc.
Qed.

Lemma choose_best_question_sound_witness :
  choose_best_question log2_dyadic 0 [inception; amelie] language_questions ∅ false None
  = Some language_en
  /\ PrimFloat.ltb 0 (score log2_dyadic language_en [inception; amelie]) = true.
Proof.
  assert (H : choose_best_question log2_dyadic 0 [inception; amelie] language_questions ∅
                false None = Some language_en) by (vm_compute; reflexivity).
  split; [exact H|].
  apply (choose_best_question_sound log2_dyadic 0 [inception; amelie] language_questions ∅
           false None language_en H).
Defined.

(** ** Counting the answers of the pool *)

(** X6. [split_counts] returns the number of rows on which the predicate is
    [True], the number on which it is [False] and the number on which it is
    [None]; the three sum to the size of the pool. *)
Theorem split_counts_spec (cands : list movie) (p : movie -> option bool) :
  split_counts cands p =
  (Z.of_nat (length (List.filter (fun m => bool_decide (p m = Some true)) cands)),
   Z.of_nat (length (List.filter (fun m => bool_decide (p m = Some false)) cands)),
   Z.of_nat (length (List.filter (fun m => bool_decide (p m = None)) cands)))
  /\ (let '(yes, no, unk) := split_counts cands p in
      yes + no + unk = Z.of_nat (length cands)).
Proof.
  induction cands as [|m rest [IH1 IH2]]; [split; reflexivity|].
  simpl. destruct (split_counts rest p) as [[yes no] unk]. injection IH1 as -> -> ->.
  destruct (p m) as [[|]|]; repeat case_bool_decide; try congruence;
    cbn [length]; (split; [repeat f_equal|]; lia).
Qed.

Lemma split_counts_decided (cands : list movie) (p : movie -> option bool) (b : bool) :
  (forall m, In m cands -> p m = Some b) ->
  split_counts cands p =
  if b then (Z.of_nat (length cands), 0, 0) else (0, Z.of_nat (length cands), 0).
Proof.
  induction cands as [|m rest IH]; intros H; [now destruct b|].
  simpl. rewrite IH by (intros x Hx; apply H; now right).
  rewrite (H m) by now left.
  destruct b; f_equal; try f_equal; lia.
Qed.

Lemma score_decided log2 q cands (b : bool) :
  (forall m, In m cands -> predicate q m = Some b) ->
  score log2 q cands = (-1.0)%float.
Proof.
  intros H. unfold score.
  set (sample := if (500 <? length cands)%nat then firstn 500 cands else cands).
  assert (Hs : forall m, In m sample -> predicate q m = Some b).
  { intros m Hm. apply H. unfold sample in Hm.
    destruct (500 <? length cands)%nat; [eapply firstn_incl; eauto|exact Hm]. }
  rewrite (split_counts_decided sample (predicate q) b Hs).
  destruct b; simpl; rewrite ?orb_true_r; reflexivity.
Qed.

Lemma all_or_other (p : movie -> option bool) (b : bool) (l : list movie) :
  (forall m, In m l -> p m = Some b) \/ exists m, In m l /\ p m <> Some b.
Proof.
  induction l as [|x r [IH|(m & Hm & Hp)]].
  - left. intros m [].
  - destruct (decide (p x = Some b)) as [E|E].
    + left. intros m [<-|Hm]; auto.
    + right. exists x. split; [now left|exact E].
  - right. exists m. split; [now right|exact Hp].
Qed.

Lemma positive_score_undecided log2 q cands :
  PrimFloat.ltb 0 (score log2 q cands) = true ->
  (exists m, In m cands /\ predicate q m <> Some false)
  /\ (exists m, In m cands /\ predicate q m <> Some true).
Proof.
  intros Hpos. split.
  - destruct (all_or_other (predicate q) false cands) as [Hall|Hex]; [|exact Hex].
    rewrite (score_decided log2 q cands false Hall) in Hpos. discriminate.
  - destruct (all_or_other (predicate q) true cands) as [Hall|Hex]; [|exact Hex].
    rewrite (score_decided log2 q cands true Hall) in Hpos. discriminate.
Qed.

(** X7. [choose_best_question] never returns a question the pool already
    decides: for the question returned, some row of the pool is not answered
    "no" by the predicate and some row is not answered "yes".  In particular
    it returns no question for an empty pool. *)
Theorem decided_question_not_chosen (log2 : float -> float) (rnd : nat) (cands : list movie)
    (questions : list Question) (asked : gset string) (first : bool)
    (state : option EngineState) (q : Question) :
  choose_best_question log2 rnd cands questions asked first state = Some q ->
  (exists m, In m cands /\ predicate q m <> Some false)
  /\ (exists m, In m cands /\ predicate q m <> Some true).
Proof.
  intros H. apply choose_best_question_scored in H as (_ & _ & Hpos).
  now apply (positive_score_undecided log2).
Qed.

Lemma decided_question_not_chosen_witness :
  choose_best_question log2_dyadic 0 [inception; amelie] language_questions ∅ false None
  = Some language_en
  /\ exists m, In m [inception; amelie] /\ predicate language_en m <> Some true.
Proof.
  assert (H : choose_best_question log2_dyadic 0 [inception; amelie] language_questions ∅
                false None = Some language_en) by (vm_compute; reflexivity).
  split; [exact H|].
  apply (decided_question_not_chosen log2_dyadic 0 [inception; amelie] language_questions ∅
           false None language_en H).
Defined.

(** ** The targeted questions *)

(** X8. [get_discriminating_questions] returns at most [count] questions,
    each one of the gathered questions, with a key that is not asked and a
    score on the pool above 0.1. *)
Theorem get_discriminating_questions_spec (log2 : float -> float) (gathered : list Question)
    (cands : list movie) (asked : gset string) (count : nat) :
  (length (get_discriminating_questions log2 gathered cands asked count) <= count)%nat
  /\ Forall (fun q => In q gathered /\ key q ∉ asked
                      /\ PrimFloat.ltb 0.1 (score log2 q cands) = true)
       (get_discriminating_questions log2 gathered cands asked count).
Proof.
  unfold get_discriminating_questions. split.
  - rewrite length_map, length_firstn. lia.
  - rewrite Forall_forall. intros q Hq.
    apply list_elem_of_In, in_map_iff in Hq as ([q' s] & <- & Hq). simpl.
    apply firstn_incl, sort_by_In, filter_In in Hq as [Hq Hs].
    apply in_map_iff in Hq as (q'' & [= <- <-] & Hq).
    apply filter_In in Hq as [Hin Hq]. apply negb_true_iff in Hq.
    apply bool_decide_eq_false in Hq. simpl in Hs. auto.
Qed.

(** ** Diversity *)

(** X9. [should_diversify] never asks to avoid a language question or a
    validation question (keys that start with "language_" or "validate_"),
    whatever the recent question types are. *)
Theorem should_diversify_exempt (st : EngineState) (q : Question) (max_consecutive : nat) :
  startswith (key q) "language_" = true \/ startswith (key q) "validate_" = true ->
  should_diversify st q max_consecutive = false.
Proof.
  intros H. unfold should_diversify.
  assert (Ht : get_question_type q = "language" \/ get_question_type q = "validation").
  { unfold get_question_type. destruct (startswith (key q) "validate_"); [now right|].
    destruct H as [H|H]; [|discriminate]. rewrite H. now left. }
  destruct Ht as [-> | ->]; reflexivity.
Qed.

Lemma should_diversify_exempt_witness :
  startswith (key language_en) "language_" = true
  /\ should_diversify
       (set_recent_question_types ["language"; "language"; "language"] (init_state []))
       language_en 2 = false.
Proof.
  split; [reflexivity|].
  apply (should_diversify_exempt _ language_en 2). left. reflexivity.
Defined.

(** ** The targeted questions are out of reach *)

Lemma consecutive_guesses_bound args w movies sess :
  args_guess_cooldown args <> 0 ->
  reachable args w movies sess ->
  consecutive_guesses (state sess) <= 1.
Proof.
  intros Hcd Hr.
  destruct (reachable_inv args (guess_count_inv args) (guess_count_preserved args Hcd)
              w movies sess (or_introl eq_refl) Hr) as [Hs _].
  destruct Hs as [->|[-> _]]; lia.
Qed.

(** X10. When the guess cooldown of the command line is not 0 (its default
    is 2), no session [main] can reach has more than one refused guess in a
    row, so the targeted-question mode, which needs at least two, is never
    entered: the block passes the session and the input on unchanged and
    shows nothing. *)
Theorem targeted_mode_never_entered (args : Args) (w : World) (movies : list movie)
    (sess : Session) (inp : list string) :
  args_guess_cooldown args <> 0 ->
  reachable args w movies sess ->
  consecutive_guesses (state sess) <= 1
  /\ targeted_block args w sess inp = (Next sess inp, []).
Proof.
  intros Hcd Hr. pose proof (consecutive_guesses_bound args w movies sess Hcd Hr) as Hle.
  split; [exact Hle|]. apply targeted_block_skipped. unfold max_consecutive_guesses. lia.
Qed.

Lemma after_refusal_reachable :
  reachable default_args language_world [inception; amelie; untitled]
    (fst (run 2 default_args language_world
            (initial_session [inception; amelie; untitled]) ["n"; "n"])).
Proof.
  eapply (reachable_step _ _ _ _ ["n"]).
  - eapply (reachable_step _ _ _ (initial_session [inception; amelie; untitled]) ["n"; "n"]).
    + apply reachable_init.
    + vm_compute. reflexivity.
  - vm_compute. reflexivity.
Qed.

Lemma targeted_mode_never_entered_witness :
  args_guess_cooldown default_args <> 0
  /\ consecutive_guesses
       (state (fst (run 2 default_args language_world
                      (initial_session [inception; amelie; untitled]) ["n"; "n"]))) <= 1
  /\ targeted_block default_args language_world
       (fst (run 2 default_args language_world
               (initial_session [inception; amelie; untitled]) ["n"; "n"])) ["y"]
     = (Next (fst (run 2 default_args language_world
                     (initial_session [inception; amelie; untitled]) ["n"; "n"])) ["y"], []).
Proof.
  assert (Hcd : args_guess_cooldown default_args <> 0) by discriminate.
  split; [exact Hcd|].
  apply (targeted_mode_never_entered default_args language_world
           [inception; amelie; untitled] _ ["y"] Hcd after_refusal_reachable).
Defined.

(** ** The pool stays within the catalogue *)

Lemma within_preserved args (movies : list movie) :
  preserved args (fun st => candidates st ⊆+ movies).
Proof.
  pose proof (pool_monotone args) as HM.
  split; intros; (etransitivity; [|eassumption]).
  - apply (mono_answer _ _ HM).
  - apply (mono_targeted _ _ HM).
  - apply (mono_streak _ _ HM).
  - apply (mono_reject _ _ HM).
  - apply (mono_eliminate _ _ HM).
  - apply (mono_sort _ _ HM).
Qed.

(** X11. In every session [main] can reach, undo included, the pool of the
    state and of every snapshot holds rows of the loaded catalogue only, each
    at most as often as the catalogue holds it. *)
Theorem pool_within_catalogue (args : Args) (w : World) (movies : list movie)
    (sess : Session) :
  reachable args w movies sess ->
  candidates (state sess) ⊆+ movies
  /\ Forall (fun snap => candidates snap ⊆+ movies) (history sess).
Proof.
  intros Hr. apply (reachable_inv args _ (within_preserved args movies) w movies sess); [|exact Hr].
  now rewrite (initial_session_candidates movies).
Qed.

Lemma pool_within_catalogue_witness :
  reachable default_args language_world [inception; amelie; untitled]
    (fst (run 2 default_args language_world
            (initial_session [inception; amelie; untitled]) ["n"; "n"]))
  /\ candidates (state (fst (run 2 default_args language_world
                            (initial_session [inception; amelie; untitled]) ["n"; "n"])))
  ⊆+ [inception; amelie; untitled].
Proof.
  split; [exact after_refusal_reachable|].
  apply (pool_within_catalogue default_args language_world [inception; amelie; untitled] _
           after_refusal_reachable).
Defined.

(** ** Counters *)

Lemma last_n_length {A} (n : nat) (l : list A) : (length (last_n n l) <= n)%nat.
Proof. unfold last_n. rewrite length_skipn. lia. Qed.


Lemma counters_ok_record_answer args q ans st :
  counters_ok args st -> counters_ok args (record_answer q ans st).
Proof.
  intros (H1 & H2 & H3 & H4 & H5). unfold counters_ok.
  destruct (record_answer_frame q ans st) as (_ & _ & _ & Hcg & _ & _ & Htm & Htl).
  rewrite Hcg, Htl, record_answer_cooldown.
  split; [|split; [|split; [|split]]]; try lia.
  - unfold record_answer, tick_cooldown.
    repeat case_match; cbn; try apply last_n_length;
      match goal with H : (10 <? _)%nat = false |- _ => apply Nat.ltb_ge in H; exact H end.
  - unfold record_answer, tick_cooldown. repeat case_match; cbn; lia.
  - intros Ha. specialize (H5 Ha). destruct (Z.ltb_spec 0 (guess_cooldown st)); lia.
Qed.

Lemma counters_ok_frame args (st st' : EngineState) :
  recent_question_types st' = recent_question_types st ->
  question_count st' = question_count st ->
  top_streak_len st' = top_streak_len st ->
  consecutive_guesses st' = consecutive_guesses st ->
  guess_cooldown st' = guess_cooldown st ->
  counters_ok args st -> counters_ok args st'.
Proof. unfold counters_ok. intros -> -> -> -> ->. tauto. Qed.

Lemma counters_ok_update args st q ans ms :
  counters_ok args st -> counters_ok args (update_state_with_answer st q ans ms).
Proof.
  destruct (update_state_with_answer_frame st q ans ms) as (_ & Hq & Hg & _ & Ht & Hc & Hr).
  now apply counters_ok_frame.
Qed.

Lemma counters_ok_preserved args : preserved args (counters_ok args).
Proof.
  split.
  - intros q ans st H. unfold answer_question.
    now apply counters_ok_update, counters_ok_record_answer.
  - intros q ans st (H1 & H2 & H3 & H4 & H5). unfold answer_targeted_question.
    apply counters_ok_update. unfold counters_ok, record_targeted_answer, tick_cooldown.
    repeat case_match; cbn in *;
      repeat match goal with
             | H : (0 <? _) = true |- _ => apply Z.ltb_lt in H
             | H : (0 <? _) = false |- _ => apply Z.ltb_ge in H
             end;
      (split; [|split; [|split; [|split]]]); try lia; intros Ha; specialize (H5 Ha); lia.
  - intros mid st (H1 & H2 & H3 & H4 & H5). unfold counters_ok, update_streak.
    case_bool_decide; cbn; (split; [|split; [|split; [|split]]]); try lia; exact H5.
  - intros mid st (H1 & H2 & H3 & H4 & H5) _. unfold counters_ok, reject_guess.
    destruct mid; cbn; (split; [|split; [|split; [|split]]]); try lia.
  - intros mid st H. revert H. now apply counters_ok_frame.
  - intros st H. revert H. now apply counters_ok_frame.
Qed.

(** X12. In every session [main] can reach, [recent_question_types] holds
    at most ten entries, [question_count], [top_streak_len] and
    [consecutive_guesses] are not negative, and, for a command-line cooldown
    that is not negative, [guess_cooldown] lies between 0 and that value. *)
Theorem counters_within_bounds (args : Args) (w : World) (movies : list movie)
    (sess : Session) :
  reachable args w movies sess ->
  (length (recent_question_types (state sess)) <= 10)%nat
  /\ 0 <= question_count (state sess)
  /\ 0 <= top_streak_len (state sess)
  /\ 0 <= consecutive_guesses (state sess)
  /\ (0 <= args_guess_cooldown args ->
      0 <= guess_cooldown (state sess) <= args_guess_cooldown args).
Proof.
  intros Hr.
  refine (proj1 (reachable_inv args (counters_ok args) (counters_ok_preserved args)
                   w movies sess _ Hr)).
  unfold counters_ok. cbn. repeat split; lia.
Qed.

Lemma counters_within_bounds_witness :
  reachable default_args language_world [inception; amelie; untitled]
    (fst (run 2 default_args language_world
            (initial_session [inception; amelie; untitled]) ["n"; "n"]))
  /\ 0 <= guess_cooldown
            (state (fst (run 2 default_args language_world
                           (initial_session [inception; amelie; untitled]) ["n"; "n"]))) <= 2.
Proof.
  split; [exact after_refusal_reachable|].
  apply (counters_within_bounds default_args language_world [inception; amelie; untitled] _
           after_refusal_reachable). discriminate.
Defined.

(** ** The history and the question counter *)


Lemma question_count_answer args q ans st :
  question_count (answer_question args q ans st) = question_count st + 1.
Proof.
  unfold answer_question.
  destruct (update_state_with_answer_frame (record_answer q ans st) q ans (max_strikes args))
    as (_ & -> & _).
  unfold record_answer, tick_cooldown. repeat case_match; reflexivity.
Qed.

Lemma question_count_targeted args q ans st :
  question_count (answer_targeted_question args q ans st) = question_count st + 1.
Proof.
  unfold answer_targeted_question.
  destruct (update_state_with_answer_frame (record_targeted_answer q st) q ans (max_strikes args))
    as (_ & -> & _).
  unfold record_targeted_answer, tick_cooldown. repeat case_match; reflexivity.
Qed.

Lemma question_count_streak mid st : question_count (update_streak mid st) = question_count st.
Proof. unfold update_streak. case_bool_decide; reflexivity. Qed.

Lemma question_count_reject args mid st :
  question_count (reject_guess args mid st) = question_count st.
Proof. unfold reject_guess. destruct mid; reflexivity. Qed.

Lemma history_ok_push sess st' :
  history_ok sess -> question_count st' = question_count (state sess) + 1 ->
  history_ok {| state := st'; history := snapshot_state (state sess) :: history sess |}.
Proof.
  intros [Hq Hc] Hs. split; cbn [state history length].
  - rewrite Hs, Hq. lia.
  - split; [now rewrite snapshot_state_id|exact Hc].
Qed.

Lemma history_ok_pop sess h hs :
  history_ok sess -> history sess = h :: hs -> history_ok {| state := h; history := hs |}.
Proof. intros [_ Hc] Hh. rewrite Hh in Hc. exact Hc. Qed.

Lemma history_ok_same sess st' :
  history_ok sess -> question_count st' = question_count (state sess) ->
  history_ok {| state := st'; history := history sess |}.
Proof. intros [Hq Hc] Hs. split; cbn [state history]; [congruence|exact Hc]. Qed.

Lemma targeted_loop_history args tqs : forall sess inp s' inp' log,
  history_ok sess ->
  targeted_loop args tqs sess inp = (Some (s', inp'), log) ->
  history_ok s'.
Proof.
  induction tqs as [|tq rest IH]; intros sess inp s' inp' log Hinv Hrun; simpl in Hrun.
  - now inversion Hrun; subst.
  - destruct (consecutive_guesses (state sess) <? max_consecutive_guesses args).
    { now inversion Hrun; subst. }
    destruct (read_answer inp) as [[ans inp1]|]; [|discriminate].
    destruct (String.eqb ans "u").
    + destruct (history sess) as [|h hs] eqn:Hhist.
      * destruct (targeted_loop args rest sess inp1) as [r l] eqn:Hr. simpl in Hrun.
        inversion Hrun; subst. eapply IH; [|exact Hr]. exact Hinv.
      * destruct (targeted_loop args rest _ inp1) as [r l] eqn:Hr. simpl in Hrun.
        inversion Hrun; subst. eapply IH; [|exact Hr].
        now apply (history_ok_pop sess).
    + destruct (targeted_loop args rest _ inp1) as [r l] eqn:Hr. simpl in Hrun.
      inversion Hrun; subst. eapply IH; [|exact Hr].
      apply history_ok_push; [exact Hinv|apply question_count_targeted].
Qed.

Lemma question_block_history args w sess inp s' inp' :
  history_ok sess ->
  fst (question_block args w sess inp) = Continue s' inp' ->
  history_ok s'.
Proof.
  intros Hinv. unfold question_block.
  destruct (choose_best_question _ _ _ _ _ _ _) as [q|].
  2:{ unfold manual_block.
      repeat case_match; simpl; intros Hrun; try discriminate; inversion Hrun; subst;
        try exact Hinv.
      all: apply history_ok_same; [exact Hinv|reflexivity]. }
  destruct (read_answer inp) as [[ans i]|]; [|discriminate].
  destruct (String.eqb ans "u").
  { destruct (history sess) as [|h hs] eqn:Hhist; simpl; intros H; inversion H; subst.
    - exact Hinv.
    - now apply (history_ok_pop sess). }
  pose proof (question_count_answer args q ans (state sess)) as Ha.
  destruct (candidates (answer_question args q ans (state sess))) as [|top r]; [discriminate|].
  destruct (movie_id top) as [mid|].
  2:{ simpl. intros H; inversion H; subst. now apply history_ok_push. }
  destruct ((9 <=? _) && (_ =? 0))%bool.
  - destruct (ask_yes_no i) as [[[|] i']|]; simpl; try discriminate.
    intros H; inversion H; subst. apply history_ok_push; [exact Hinv|].
    now rewrite question_count_reject, question_count_streak.
  - simpl. intros H; inversion H; subst. apply history_ok_push; [exact Hinv|].
    now rewrite question_count_streak.
Qed.

Lemma iteration_history args w sess inp s' inp' :
  history_ok sess ->
  fst (iteration args w sess inp) = Continue s' inp' ->
  history_ok s'.
Proof.
  intros Hinv. unfold iteration.
  destruct (candidates (state sess)) as [|c0 [|c1 r]]; try discriminate.
  destruct (targeted_block args w sess inp) as [[s1 i1|o] l1] eqn:Ht.
  2:{ simpl. apply targeted_block_stop in Ht. subst o. discriminate. }
  assert (H1 : history_ok s1).
  { unfold targeted_block in Ht. destruct (_ <=? _).
    - destruct (targeted_loop _ _ _ _) as [[[s2 i2]|] l] eqn:Hr; inversion Ht; subst.
      eapply targeted_loop_history; eauto.
    - inversion Ht; now subst. }
  unfold guess_block.
  destruct (should_enter_guess_mode (state s1) && (guess_cooldown (state s1) =? 0))%bool.
  - destruct (candidates (state s1)) as [|top r']; [discriminate|].
    destruct (ask_yes_no i1) as [[[|] i]|]; simpl; try discriminate.
    intros H; inversion H; subst. apply history_ok_same; [exact H1|].
    apply question_count_reject.
  - destruct (question_block args w s1 i1) as [o l3] eqn:Hq. simpl.
    intros H. apply (question_block_history args w s1 i1 s' inp' H1). now rewrite Hq.
Qed.

(** X13. In every session [main] can reach, [question_count] is the number
    of snapshots in the history, and the snapshot taken before the answer
    number i+1 has [question_count] i: every answer appends one snapshot and
    counts one question, every undo takes both back, and a refused guess or
    a manual elimination changes neither. *)
Theorem question_count_is_history_length (args : Args) (w : World) (movies : list movie)
    (sess : Session) :
  reachable args w movies sess ->
  question_count (state sess) = Z.of_nat (length (history sess))
  /\ forall i snap, nth_error (rev (history sess)) i = Some snap ->
                    question_count snap = Z.of_nat i.
Proof.
  intros Hr.
  assert (H : history_ok sess).
  { induction Hr as [|sess inp sess' inp' log Hr IH Hit].
    - split; [reflexivity|exact I].
    - eapply iteration_history; [exact IH|]. now rewrite Hit. }
  destruct H as [Hq Hc]. split; [exact Hq|].
  clear Hq Hr. induction (history sess) as [|h hs IH]; intros i snap Hn.
  - destruct i; discriminate.
  - destruct Hc as [Hh Hc]. simpl in Hn.
    destruct (Nat.lt_ge_cases i (length (rev hs))) as [Hlt|Hge].
    + rewrite nth_error_app1 in Hn by exact Hlt. now apply IH.
    + rewrite nth_error_app2 in Hn by exact Hge.
      destruct (i - length (rev hs))%nat as [|k] eqn:Hk; simpl in Hn.
      * injection Hn as <-. rewrite length_rev in *. rewrite Hh. f_equal. lia.
      * destruct k; discriminate.
Qed.

Lemma after_answer_reachable :
  reachable default_args language_world [inception; amelie; untitled]
    (fst (run 1 default_args language_world
            (initial_session [inception; amelie; untitled]) ["?"])).
Proof.
  eapply (reachable_step _ _ _ (initial_session [inception; amelie; untitled]) ["?"]).
  - apply reachable_init.
  - vm_compute. reflexivity.
Qed.

Lemma question_count_is_history_length_witness :
  reachable default_args language_world [inception; amelie; untitled]
    (fst (run 1 default_args language_world
            (initial_session [inception; amelie; untitled]) ["?"]))
  /\ question_count
       (state (fst (run 1 default_args language_world
                      (initial_session [inception; amelie; untitled]) ["?"])))
     = Z.of_nat (length (history (fst (run 1 default_args language_world
                      (initial_session [inception; amelie; untitled]) ["?"])))).
Proof.
  split; [exact after_answer_reachable|].
  exact (proj1 (question_count_is_history_length default_args language_world
                  [inception; amelie; untitled] _ after_answer_reachable)).
Defined.

(** ** An answer leaves a candidate *)

Lemma update_candidates_no_strikes st q ans ms :
  strikes st = ∅ -> 1 <= ms ->
  Permutation (candidates (update_state_with_answer st q ans ms))
              (candidates (apply_answer st q ans)).
Proof.
  intros Hs Hms. destruct (is_hard_elimination (key q)) eqn:Hh.
  - now apply hard_update_candidates.
  - rewrite soft_update by exact Hh. rewrite strike_removal_no_strikes.
    + apply sort_candidates_Permutation.
    + exact Hms.
    + apply subseteq_empty_map. rewrite <- Hs. apply apply_answer_strikes.
Qed.

Lemma answer_keeps_row args log2 st q ans :
  Forall (fun m => movie_id m <> None) (candidates st) ->
  strikes st = ∅ ->
  PrimFloat.ltb 0 (score log2 q (candidates st)) = true ->
  candidates (answer_question args q ans st) <> [].
Proof.
  intros Hids Hs Hq.
  apply positive_score_undecided in Hq as [(m1 & Hin1 & Hp1) (m2 & Hin2 & Hp2)].
  rewrite Forall_forall in Hids.
  destruct (record_answer_frame q ans st) as (Hc & _ & Hsk & _).
  assert (Hex : exists m, In m (candidates (apply_answer (record_answer q ans st) q ans))).
  { rewrite apply_answer_candidates, Hc.
    destruct (String.eqb ans "y"); [|destruct (String.eqb ans "n")].
    - exists m1. apply filter_In. split; [exact Hin1|]. apply kept_rule_y.
      split; [|exact Hp1]. apply Hids. now apply list_elem_of_In.
    - exists m2. apply filter_In. split; [exact Hin2|]. apply kept_rule_n.
      split; [|exact Hp2]. apply Hids. now apply list_elem_of_In.
    - now exists m1. }
  destruct Hex as (m & Hm). unfold answer_question.
  assert (Hms : 1 <= max_strikes args) by (unfold max_strikes; lia).
  pose proof (update_candidates_no_strikes (record_answer q ans st) q ans (max_strikes args)
                ltac:(now rewrite Hsk) Hms) as HP.
  intros E. rewrite E in HP. apply Permutation_nil in HP. rewrite HP in Hm. destruct Hm.
Qed.

(** X14. When every row of the pool has an identifier and no strike is
    recorded, an answer to the question [choose_best_question] returned for
    that pool never empties the pool, whatever the answer: [main] can read
    [state.candidates[0]] after [update_state_with_answer]. *)
Theorem answer_leaves_candidate (args : Args) (log2 : float -> float) (rnd : nat)
    (questions : list Question) (asked' : gset string) (first : bool)
    (state' : option EngineState) (st : EngineState) (q : Question) (ans : Answer) :
  Forall (fun m => movie_id m <> None) (candidates st) ->
  strikes st = ∅ ->
  choose_best_question log2 rnd (candidates st) questions asked' first state' = Some q ->
  candidates (answer_question args q ans st) <> [].
Proof.
  intros Hids Hs Hq. apply choose_best_question_scored in Hq as (_ & _ & Hpos).
  now apply (answer_keeps_row args log2).
Qed.

Lemma answer_leaves_candidate_witness :
  Forall (fun m => movie_id m <> None) (candidates (init_state [inception; amelie]))
  /\ strikes (init_state [inception; amelie]) = ∅
  /\ choose_best_question log2_dyadic 0 (candidates (init_state [inception; amelie]))
       language_questions ∅ false None = Some language_en
  /\ candidates (answer_question default_args language_en "n" (init_state [inception; amelie]))
     <> [].
Proof.
  assert (H1 : Forall (fun m => movie_id m <> None) (candidates (init_state [inception; amelie])))
    by (repeat constructor; discriminate).
  assert (H3 : choose_best_question log2_dyadic 0 (candidates (init_state [inception; amelie]))
                 language_questions ∅ false None = Some language_en)
    by (vm_compute; reflexivity).
  split; [exact H1|]. split; [reflexivity|]. split; [exact H3|].
  exact (answer_leaves_candidate default_args log2_dyadic 0 language_questions ∅ false None
           (init_state [inception; amelie]) language_en "n" H1 eq_refl H3).
Defined.

(** ** The only exception of the loop *)




(** ** Undo *)

(** X16. Undo takes back an answer exactly.  When a question was answered
    in a turn, the history of the next session is the state before the
    answer on top of the former history; and if the next turn puts a
    question and the user types "u", the loop continues from the session
    before the answer: same state, same history. *)
Theorem undo_restores_session (args : Args) (w : World) (sess s1 : Session)
    (inp i1 rest : list string) (log : list event) (q' : Question) :
  question_block args w sess inp = (Continue s1 i1, log) ->
  questions_asked log <> [] ->
  retracted log = false ->
  choose_best_question (w_log2 w) (w_random w) (candidates (state s1))
    (w_merged_questions w (candidates (state s1)) (asked (state s1)))
    (asked (state s1)) (question_count (state s1) =? 0) (Some (state s1)) = Some q' ->
  history s1 = state sess :: history sess
  /\ question_block args w s1 ("u" :: rest) = (Continue sess rest, [EvQuestion q'; EvUndone]).
Proof.
  intros Hq Hlog Hret Hch.
  assert (Hh : history s1 = state sess :: history sess).
  { unfold question_block in Hq.
    destruct (choose_best_question _ _ _ _ _ _ _) as [q|].
    2:{ exfalso. apply Hlog. change log with (snd (Continue s1 i1, log)). rewrite <- Hq.
        apply manual_block_no_question. }
    destruct (read_answer inp) as [[ans i]|]; [|discriminate].
    destruct (String.eqb ans "u").
    { destruct (history sess); injection Hq as <- <- <-; discriminate. }
    rewrite snapshot_state_id in Hq.
    destruct (candidates (answer_question args q ans (state sess))) as [|top r]; [discriminate|].
    destruct (movie_id top) as [mid|]; [|now injection Hq as <- _ _].
    destruct ((9 <=? _) && (_ =? 0))%bool.
    - destruct (ask_yes_no i) as [[[|] ?]|]; try discriminate. now injection Hq as <- _ _.
    - now injection Hq as <- _ _. }
  split; [exact Hh|].
  unfold question_block. rewrite Hch. cbn [read_answer existsb String.eqb].
  simpl. rewrite Hh. now destruct sess.
Qed.

Lemma undo_restores_session_witness :
  question_block default_args language_world (initial_session [inception; amelie; untitled]) ["?"]
  = (Continue (fst (run 1 default_args language_world
                      (initial_session [inception; amelie; untitled]) ["?"])) [],
     [EvQuestion language_en])
  /\ question_block default_args language_world
       (fst (run 1 default_args language_world
               (initial_session [inception; amelie; untitled]) ["?"])) ["u"; "y"]
     = (Continue (initial_session [inception; amelie; untitled]) ["y"],
        [EvQuestion language_fr; EvUndone]).
Proof.
  assert (H1 : question_block default_args language_world
                 (initial_session [inception; amelie; untitled]) ["?"]
               = (Continue (fst (run 1 default_args language_world
                      (initial_session [inception; amelie; untitled]) ["?"])) [],
                  [EvQuestion language_en])) by (vm_compute; reflexivity).
  split; [exact H1|].
  refine (proj2 (undo_restores_session default_args language_world _ _ _ _ ["y"] _ language_fr
                   H1 _ _ _)).
  - discriminate.
  - reflexivity.
  - vm_compute. reflexivity.
Defined.

(** ** Reading the answers *)

(** X17. [read_answer] returns the first line of the input that is one of
    the six answer codes, having skipped only lines that are none of them;
    it keeps reading (here: runs out of input) when no line is a code. *)
Theorem read_answer_spec (inp : list string) :
  match read_answer inp with
  | Some (ans, rest) =>
      In ans ["y"; "n"; "?"; "py"; "pn"; "u"]
      /\ exists skipped, inp = skipped ++ ans :: rest
           /\ Forall (fun x => ~ In x ["y"; "n"; "?"; "py"; "pn"; "u"]) skipped
  | None => Forall (fun x => ~ In x ["y"; "n"; "?"; "py"; "pn"; "u"]) inp
  end.
Proof.
  induction inp as [|x r IH]; [constructor|]. cbn [read_answer].
  destruct (existsb (String.eqb x) ["y"; "n"; "?"; "py"; "pn"; "u"]) eqn:Hx; cbn beta iota.
  - apply existsb_exists in Hx as (c & Hc & He). apply String.eqb_eq in He. subst c.
    split; [exact Hc|]. exists []. split; [reflexivity|constructor].
  - assert (Hn : ~ In x ["y"; "n"; "?"; "py"; "pn"; "u"]).
    { intros Hin. apply not_true_iff_false in Hx. apply Hx. apply existsb_exists.
      exists x. split; [exact Hin|apply String.eqb_refl]. }
    destruct (read_answer r) as [[ans rest]|].
    + destruct IH as (Hin & skipped & -> & Hsk). split; [exact Hin|].
      exists (x :: skipped). split; [reflexivity|now constructor].
    + now constructor.
Qed.
